(** * Verification of the byte-stream compressor of ImageCompression.cpp

    The development embeds the two encoder stages of the program,
    [runLengthEncode] and [huffmanEncode] (with [buildHuffmanTree] and its
    [encode] lambda), and settles the properties stated about them.

    Conventions of the embedding.
    - A [uchar] is a [Z]; the only arithmetic the program does on one is the
      increment [++count], whose wrap-around modulo 256 is written out.
    - A [std::vector<uchar>] is a [list Z].
    - A [std::unordered_map<uchar, V>] is a [gmap Z V].  Its iteration order,
      which the C++ standard leaves to the implementation and which may
      depend on the order in which the keys were inserted, is a field of
      the class [StdLib] below.
    - The frequencies of module [Huffman] are computed in [Z].  The
      program computes them in [int], where an overflow is undefined
      behaviour; module [Int32] has the encoder with that arithmetic.  The
      two agree on every buffer of at most [INT_MAX] bytes (lemmas
      [frequencies_int32] and [build_tree_int32]): the counts never exceed
      the length of the buffer and the largest sum of the merge loop, the
      frequency of the root, is that length.  Statements that depend on the
      value of a frequency are made on [Int32].
    - Calls that can fail return a [result]; loops run on an iteration
      budget that is shown to suffice. *)

From Stdlib Require Import ZArith Lia String Ascii.
From stdpp Require Import base option list gmap strings.

Set Warnings "-register-all".
Local Open Scope Z_scope.

(** ** Run-length encoding *)

Module RLE.

(** The values of an [unsigned char]. *)
Definition is_uchar (b : Z) : Prop := 0 <= b < 256.

(** [++count] on an [unsigned char]. *)
Definition uchar_incr (count : Z) : Z := (count + 1) mod 256.

(** The inner loop
    [while (i + 1 < data.size() && data[i] == data[i + 1]) { ++count; ++i; }]
    started at index [i] with counter [count]; it returns the final index
    and counter.  The index grows at every iteration, so [fuel] bounds the
    number of iterations. *)
Fixpoint rle_while (fuel : nat) (data : list Z) (i : nat) (count : Z)
    : nat * Z :=
  match fuel with
  | O => (i, count)
  | S fuel' =>
      if Nat.ltb (i + 1) (length data)
         && Z.eqb (nth i data 0) (nth (i + 1) data 0)
      then rle_while fuel' data (i + 1) (uchar_incr count)
      else (i, count)
  end.

(** The outer loop [for (size_t i = 0; i < data.size(); ++i)], whose body
    sets [count = 1], runs the inner loop and pushes [data[i]] and
    [count]. *)
Fixpoint rle_for (fuel : nat) (data : list Z) (i : nat)
    (encodedData : list Z) : list Z :=
  match fuel with
  | O => encodedData
  | S fuel' =>
      if Nat.ltb i (length data) then
        let (i', count) := rle_while (length data) data i 1 in
        rle_for fuel' data (i' + 1) (encodedData ++ [nth i' data 0; count])
      else encodedData
  end.

(** Neither loop runs more often than the buffer has elements: a larger
    budget gives the same result (lemmas [rle_for_scan] and
    [runLengthEncode_fuel]). *)
Definition runLengthEncode (data : list Z) : list Z :=
  rle_for (length data) data 0 [].

(** The same scan by recursion on the buffer.  [cur] is [data[i]], [count]
    the counter of the current outer iteration and [rest] the elements
    after index [i]: the inner loop consumes the head of [rest] as long as
    it equals [cur]; otherwise the pair is pushed and the outer loop
    restarts at the head of [rest] with [count = 1]. *)
Fixpoint rle_scan (cur count : Z) (rest : list Z) : list Z :=
  match rest with
  | [] => [cur; count]
  | next :: rest' =>
      if Z.eqb cur next
      then rle_scan cur (uchar_incr count) rest'
      else cur :: count :: rle_scan next 1 rest'
  end.

(** *** The maximal runs of a buffer, as the specification describes them *)

(** Maximal runs of identical consecutive values, left to right, computed
    from the right end of the buffer. *)
Fixpoint maximal_runs (data : list Z) : list (Z * nat) :=
  match data with
  | [] => []
  | x :: rest =>
      match maximal_runs rest with
      | (y, n) :: rs => if Z.eqb x y then (y, S n) :: rs else (x, 1%nat) :: (y, n) :: rs
      | [] => [(x, 1%nat)]
      end
  end.

(** Expansion of a list of runs. *)
Definition expand (rs : list (Z * nat)) : list Z :=
  flat_map (fun r => repeat (fst r) (snd r)) rs.

(** No two neighbouring runs carry the same value. *)
Fixpoint adjacent_differ (rs : list (Z * nat)) : Prop :=
  match rs with
  | r1 :: ((r2 :: _) as tl) => fst r1 <> fst r2 /\ adjacent_differ tl
  | _ => True
  end.

(** The flat value/count layout of the output vector, with exact counts. *)
Definition flat_runs (rs : list (Z * nat)) : list Z :=
  flat_map (fun r => [fst r; Z.of_nat (snd r)]) rs.

(** The same layout with the count reduced to eight bits. *)
Definition flat_runs_u8 (rs : list (Z * nat)) : list Z :=
  flat_map (fun r => [fst r; Z.of_nat (snd r) mod 256]) rs.

End RLE.

(** ** Results of fallible code *)

(** Outcome of a call.  [UndefinedBehaviour] stands for [top()] or [pop()]
    on an empty [std::priority_queue] and for the overflow of an [int],
    [InvalidArgument] for the exception of the [std::bitset] string
    constructor, and [OutOfFuel] for a loop of the model that used up its
    iteration budget (shown below never to happen with the budgets the
    model passes). *)
Inductive result (A : Type) : Type :=
| Ok (a : A)
| UndefinedBehaviour
| InvalidArgument
| OutOfFuel.

Arguments Ok {A} a.
Arguments UndefinedBehaviour {A}.
Arguments InvalidArgument {A}.
Arguments OutOfFuel {A}.

Definition bind {A B : Type} (r : result A) (k : A -> result B) : result B :=
  match r with
  | Ok a => k a
  | UndefinedBehaviour => UndefinedBehaviour
  | InvalidArgument => InvalidArgument
  | OutOfFuel => OutOfFuel
  end.

Notation "x <<- r ; k" := (bind r (fun x => k))
  (at level 200, r at level 100, k at level 200, right associativity).

(** ** Huffman coding *)

Module Huffman.

(** [struct HuffmanNode]: a symbol, a frequency and two nullable child
    pointers.  Nodes are allocated once and never shared, so a pointer to a
    node is the node. *)
Inductive HuffmanNode : Type :=
| Node (data : Z) (freq : Z) (left right : option HuffmanNode).

Definition freq_of (n : HuffmanNode) : Z := match n with Node _ f _ _ => f end.
Definition left_of (n : HuffmanNode) : option HuffmanNode :=
  match n with Node _ _ l _ => l end.
Definition right_of (n : HuffmanNode) : option HuffmanNode :=
  match n with Node _ _ _ r => r end.

(** The constructor [HuffmanNode(d, f)]: both children null. *)
Definition new_HuffmanNode (d f : Z) : HuffmanNode := Node d f None None.

(** [HuffmanNodeCompare::operator()]. *)
Definition HuffmanNodeCompare (l r : HuffmanNode) : bool :=
  Z.gtb (freq_of l) (freq_of r).

(** What the program uses of the C++ standard library and the standard
    leaves open: the order in which a range-for visits an
    [unordered_map<uchar,int>], and which of several least elements a
    [priority_queue] ordered by [HuffmanNodeCompare] yields.  The order of
    the visit may depend on how the map was filled: the first argument of
    [umap_iter] is the sequence of keys passed to [operator[]] since the
    map was created, the second the content of the map.  [pq_elems] gives
    the content of a queue; it is used in statements only. *)
Class StdLib : Type := {
  umap_iter : list Z -> gmap Z Z -> list (Z * Z);
  umap_iter_perm : forall keys m, umap_iter keys m ≡ₚ map_to_list m;
  priority_queue : Type;
  pq_elems : priority_queue -> list HuffmanNode;
  pq_empty : priority_queue;
  pq_size : priority_queue -> nat;
  pq_push : HuffmanNode -> priority_queue -> priority_queue;
  pq_top : priority_queue -> option HuffmanNode;
  pq_pop : priority_queue -> option priority_queue;
  pq_empty_elems : pq_elems pq_empty = [];
  pq_size_elems : forall q, pq_size q = length (pq_elems q);
  pq_push_elems : forall x q, pq_elems (pq_push x q) ≡ₚ x :: pq_elems q;
  pq_top_pop_empty : forall q,
    pq_elems q = [] -> pq_top q = None /\ pq_pop q = None;
  pq_top_pop_elems : forall q,
    pq_elems q <> [] ->
    exists x q',
      pq_top q = Some x /\ pq_pop q = Some q' /\
      pq_elems q ≡ₚ x :: pq_elems q' /\
      Forall (fun y => HuffmanNodeCompare x y = false) (pq_elems q')
}.

Section Encoder.
Context {L : StdLib}.

(** First loop of [buildHuffmanTree]: [freq[ch]++] for every byte.
    [operator[]] inserts 0 for an absent key before the increment.  The
    count is kept in [Z]; [Int32.count_loop] keeps it in [int]. *)
Definition frequencies (data : list Z) : gmap Z Z :=
  foldl (fun freq ch => <[ch := default 0 (freq !! ch) + 1]> freq) ∅ data.

(** Second loop: one leaf per entry of the table, pushed in iteration
    order.  [data] is the buffer from which the first loop filled [freq]. *)
Definition fill_queue (data : list Z) (freq : gmap Z Z) : priority_queue :=
  foldl (fun pq pair => pq_push (new_HuffmanNode (fst pair) (snd pair)) pq)
        pq_empty (umap_iter data freq).

(** The [while (pq.size() != 1)] loop followed by [root = pq.top()].
    [fuel] bounds the number of iterations.  The sum of the two frequencies
    is taken in [Z]; [Int32.merge_loop] takes it in [int]. *)
Fixpoint merge_loop (fuel : nat) (pq : priority_queue) : result HuffmanNode :=
  if Nat.eqb (pq_size pq) 1 then
    match pq_top pq with
    | Some root => Ok root
    | None => UndefinedBehaviour
    end
  else
    match fuel with
    | O => OutOfFuel
    | S fuel' =>
        match pq_top pq, pq_pop pq with
        | Some left_node, Some pq1 =>
            match pq_top pq1, pq_pop pq1 with
            | Some right_node, Some pq2 =>
                let sum := freq_of left_node + freq_of right_node in
                let node := Node 0 sum (Some left_node) (Some right_node) in
                merge_loop fuel' (pq_push node pq2)
            | _, _ => UndefinedBehaviour
            end
        | _, _ => UndefinedBehaviour
        end
    end.

(** The recursive lambda [encode].  A null pointer returns at once; a node
    with two null children records [str] as the code of its symbol. *)
Fixpoint encode (node : HuffmanNode) (str : string)
    (huffmanCode : gmap Z string) : gmap Z string :=
  match node with
  | Node d _ l r =>
      let hc0 :=
        match l, r with
        | None, None => <[d := str]> huffmanCode
        | _, _ => huffmanCode
        end in
      let hc1 :=
        match l with
        | Some n => encode n (str +:+ "0") hc0
        | None => hc0
        end in
      match r with
      | Some n => encode n (str +:+ "1") hc1
      | None => hc1
      end
  end.

(** [buildHuffmanTree] up to [root = pq.top()].  An iteration of the loop
    removes two nodes and adds one, so a queue of [n] nodes allows fewer
    than [S n] iterations. *)
Definition build_tree (data : list Z) : result HuffmanNode :=
  let pq := fill_queue data (frequencies data) in
  merge_loop (S (pq_size pq)) pq.

Definition buildHuffmanTree (data : list Z) (huffmanCode : gmap Z string)
    : result (gmap Z string) :=
  root <<- build_tree data;
  Ok (encode root "" huffmanCode).

(** [std::bitset<8> bits(s); bits.to_ulong()]: the constructor reads at
    most eight characters, the last one read being bit 0, and throws on a
    character other than '0' and '1'. *)
Fixpoint bitset_value (s : string) (acc : Z) : result Z :=
  match s with
  | EmptyString => Ok acc
  | String c s' =>
      if Ascii.eqb c "0" then bitset_value s' (2 * acc)
      else if Ascii.eqb c "1" then bitset_value s' (2 * acc + 1)
      else InvalidArgument
  end.

Definition bitset8_to_ulong (s : string) : result Z :=
  bitset_value (substring 0 8 s) 0.

(** [for (uchar ch : data) encodedStr += huffmanCode[ch]].  [operator[]]
    yields the empty string for an absent key. *)
Definition concat_codes (huffmanCode : gmap Z string) (data : list Z) : string :=
  foldl (fun encodedStr ch => encodedStr +:+ default "" (huffmanCode !! ch))
        "" data.

(** [for (i = 0; i < encodedStr.size(); i += 8)] with the body packing
    [encodedStr.substr(i, 8)] into one byte. *)
Fixpoint pack_loop (fuel i : nat) (encodedStr : string)
    (encodedData : list Z) : result (list Z) :=
  if Nat.ltb i (String.length encodedStr) then
    match fuel with
    | O => OutOfFuel
    | S fuel' =>
        bits <<- bitset8_to_ulong (substring i 8 encodedStr);
        pack_loop fuel' (i + 8) encodedStr (encodedData ++ [bits])
    end
  else Ok encodedData.

Definition pack (encodedStr : string) : result (list Z) :=
  pack_loop (String.length encodedStr) 0 encodedStr [].

Definition huffmanEncode (data : list Z) : result (list Z) :=
  huffmanCode <<- buildHuffmanTree data ∅;
  pack (concat_codes huffmanCode data).

End Encoder.

End Huffman.

(** ** The encoder with 32-bit frequencies *)

(** The program keeps the frequencies in [int]: the counts of
    [unordered_map<uchar, int>] and the field [freq] of [HuffmanNode].  An
    [int] has 32 bits, and an overflow of a signed integer is undefined
    behaviour.  This module has the functions of module [Huffman] with that
    arithmetic; everything else is shared. *)
Module Int32.
Import Huffman.

Definition INT_MAX : Z := 2147483647.
Definition INT_MIN : Z := -2147483648.

(** The [int] whose mathematical value is [v], if there is one. *)
Definition int_value (v : Z) : result Z :=
  if Z.leb INT_MIN v && Z.leb v INT_MAX then Ok v else UndefinedBehaviour.

Section Encoder.
Context {L : StdLib}.

(** [for (uchar ch : data) freq[ch]++], from the table [freq]. *)
Fixpoint count_loop (data : list Z) (freq : gmap Z Z) : result (gmap Z Z) :=
  match data with
  | [] => Ok freq
  | ch :: rest =>
      count <<- int_value (default 0 (freq !! ch) + 1);
      count_loop rest (<[ch := count]> freq)
  end.

Definition frequencies (data : list Z) : result (gmap Z Z) :=
  count_loop data ∅.

(** The merge loop, with [int sum = left->freq + right->freq]. *)
Fixpoint merge_loop (fuel : nat) (pq : priority_queue) : result HuffmanNode :=
  if Nat.eqb (pq_size pq) 1 then
    match pq_top pq with
    | Some root => Ok root
    | None => UndefinedBehaviour
    end
  else
    match fuel with
    | O => OutOfFuel
    | S fuel' =>
        match pq_top pq, pq_pop pq with
        | Some left_node, Some pq1 =>
            match pq_top pq1, pq_pop pq1 with
            | Some right_node, Some pq2 =>
                sum <<- int_value (freq_of left_node + freq_of right_node);
                let node := Node 0 sum (Some left_node) (Some right_node) in
                merge_loop fuel' (pq_push node pq2)
            | _, _ => UndefinedBehaviour
            end
        | _, _ => UndefinedBehaviour
        end
    end.

Definition build_tree (data : list Z) : result HuffmanNode :=
  freq <<- frequencies data;
  let pq := fill_queue data freq in
  merge_loop (S (pq_size pq)) pq.

Definition buildHuffmanTree (data : list Z) (huffmanCode : gmap Z string)
    : result (gmap Z string) :=
  root <<- build_tree data;
  Ok (encode root "" huffmanCode).

Definition huffmanEncode (data : list Z) : result (list Z) :=
  huffmanCode <<- buildHuffmanTree data ∅;
  pack (concat_codes huffmanCode data).

End Encoder.

End Int32.

(** ** Vocabulary for statements about trees and code tables *)

Module Tree.
Import Huffman.

(** Sum of a list of counts. *)
Definition sumZ (l : list Z) : Z := foldr Z.add 0 l.

(** Sum of all counts of a frequency table. *)
Definition total_count (freq : gmap Z Z) : Z :=
  sumZ (snd <$> map_to_list freq).

(** One step of the counting loop of [buildHuffmanTree]. *)
Definition count_step (freq : gmap Z Z) (ch : Z) : gmap Z Z :=
  <[ch := default 0 (freq !! ch) + 1]> freq.

(** The trees the program builds: a node has no child or two. *)
Inductive wf_tree : HuffmanNode -> Prop :=
| wf_leaf d f : wf_tree (Node d f None None)
| wf_internal d f l r :
    wf_tree l -> wf_tree r -> wf_tree (Node d f (Some l) (Some r)).

Definition is_leaf (n : HuffmanNode) : bool :=
  match n with
  | Node _ _ None None => true
  | _ => false
  end.

(** Symbols of the leaves, left to right. *)
Fixpoint leaves (n : HuffmanNode) : list Z :=
  match n with
  | Node d _ l r =>
      (if is_leaf n then [d] else []) ++
      (match l with Some c => leaves c | None => [] end) ++
      (match r with Some c => leaves c | None => [] end)
  end.

(** Leaf symbols of all the trees of a queue. *)
Definition forest_leaves (q : list HuffmanNode) : list Z := flat_map leaves q.

(** The leaf pushed for one entry of the frequency table. *)
Definition leaf_of (pair : Z * Z) : HuffmanNode :=
  new_HuffmanNode (fst pair) (snd pair).

(** The node the loop builds from the two nodes it removed. *)
Definition merge_nodes (l r : HuffmanNode) : HuffmanNode :=
  Node 0 (freq_of l + freq_of r) (Some l) (Some r).

(** Leaves with the branches taken from the root ([false] left, [true]
    right). *)
Fixpoint paths (n : HuffmanNode) : list (Z * list bool) :=
  match n with
  | Node d _ l r =>
      (if is_leaf n then [(d, [])] else []) ++
      (match l with
       | Some c => prod_map id (cons false) <$> paths c
       | None => []
       end) ++
      (match r with
       | Some c => prod_map id (cons true) <$> paths c
       | None => []
       end)
  end.

(** The characters the [encode] lambda appends along a path. *)
Definition bit_char (b : bool) : ascii := if b then "1"%char else "0"%char.

Fixpoint path_string (p : list bool) : string :=
  match p with
  | [] => EmptyString
  | b :: p' => String (bit_char b) (path_string p')
  end.

(** One insertion of the [encode] lambda, for the leaf reached by the path
    [e.2] from a node whose accumulated string is [str]. *)
Definition record_code (str : string) (hc : gmap Z string)
    (e : Z * list bool) : gmap Z string :=
  <[e.1 := str +:+ path_string e.2]> hc.

(** A string of '0' and '1' only. *)
Fixpoint is_binary (s : string) : Prop :=
  match s with
  | EmptyString => True
  | String c s' => (c = "0"%char \/ c = "1"%char) /\ is_binary s'
  end.

(** The path of the first leaf that carries the symbol [ch]; no bits when
    there is none. *)
Definition code_bits (root : HuffmanNode) (ch : Z) : list bool :=
  match list_find (fun e => e.1 = ch) (paths root) with
  | Some (_, e) => e.2
  | None => []
  end.

(** The number written by a list of bits, first bit most significant,
    continuing from [acc]. *)
Definition bits_value (q : list bool) (acc : Z) : Z :=
  foldl (fun a b => 2 * a + Z.b2z b) acc q.

(** The bytes of a list of bits cut into groups of eight, the last group
    possibly shorter; [fuel] bounds the number of groups. *)
Fixpoint chunk_values (fuel : nat) (q : list bool) : list Z :=
  match fuel with
  | O => []
  | S fuel' =>
      match q with
      | [] => []
      | _ :: _ => bits_value (take 8 q) 0 :: chunk_values fuel' (drop 8 q)
      end
  end.

End Tree.

(** ** The compression pipeline *)

Module Pipeline.
Import RLE Huffman.

(** Modelled from the spec: the program defines the two stages but never
    chains them; the specification's compress is "RLE -> Huffman encode". *)
Definition compress {L : StdLib} (data : list Z) : result (list Z) :=
  huffmanEncode (runLengthEncode data).

(** Modelled from the spec: the decode direction, which the program does
    not have.  The specification reads the tree and the number of valid
    bits from a header; the encoder writes no header, so both are
    arguments here. *)






End Pipeline.

(** ** Two implementations of the standard containers

    The queue is a plain list searched for a least element; the flag
    [later] decides which of several least elements is taken (the first or
    the last in the list), and [rev_iter] whether the frequency table is
    visited in the order of [map_to_list] or in the opposite order, whatever
    the order of insertion; a third table, [iter_recent], is visited in an
    order that depends on the order of insertion.  All of these are allowed
    by the C++ standard. *)

Module ListQueue.
Import Huffman.

(** Whether the least element [m] of the tail is preferred to the head [x]. *)
Definition take_tail (later : bool) (x m : HuffmanNode) : bool :=
  if later then negb (Z.ltb (freq_of x) (freq_of m))
  else HuffmanNodeCompare x m.

(** A least element of [x :: q] and the other elements. *)
Fixpoint extract_min (later : bool) (x : HuffmanNode) (q : list HuffmanNode)
    : HuffmanNode * list HuffmanNode :=
  match q with
  | [] => (x, [])
  | y :: q' =>
      let (m, r) := extract_min later y q' in
      if take_tail later x m then (m, x :: r) else (x, y :: q')
  end.

Definition top (later : bool) (q : list HuffmanNode) : option HuffmanNode :=
  match q with
  | [] => None
  | x :: q' => Some (fst (extract_min later x q'))
  end.

Definition pop (later : bool) (q : list HuffmanNode) : option (list HuffmanNode) :=
  match q with
  | [] => None
  | x :: q' => Some (snd (extract_min later x q'))
  end.

Definition iter (rev_iter : bool) (m : gmap Z Z) : list (Z * Z) :=
  if rev_iter then reverse (map_to_list m) else map_to_list m.

Lemma iter_perm rev_iter m : iter rev_iter m ≡ₚ map_to_list m.
Proof. destruct rev_iter; cbn; [apply reverse_Permutation | done]. Qed.

Lemma extract_min_spec later q : forall x m r,
  extract_min later x q = (m, r) ->
  x :: q ≡ₚ m :: r /\
  Forall (fun y => HuffmanNodeCompare m y = false) r.
Proof.
  induction q as [|y q IH]; intros x m r E; cbn [extract_min] in E.
  - injection E as <- <-. split; [done | constructor].
  - destruct (extract_min later y q) as [m' r'] eqn:E'.
    destruct (IH y m' r' E') as [HP HF].
    destruct (take_tail later x m') eqn:Ht; injection E as <- <-.
    + split.
      * rewrite HP. apply Permutation_swap.
      * constructor; [|exact HF].
        unfold take_tail, HuffmanNodeCompare in *.
        destruct later; lia.
    + split; [done|].
      assert (Hxm : HuffmanNodeCompare x m' = false).
      { unfold take_tail, HuffmanNodeCompare in *. destruct later; lia. }
      rewrite HP. constructor; [exact Hxm|].
      eapply Forall_impl; [exact HF|]. cbn. intros z Hz.
      unfold HuffmanNodeCompare in *. lia.
Qed.

Lemma top_pop_elems later (q : list HuffmanNode) :
  q <> [] ->
  exists x q',
    top later q = Some x /\ pop later q = Some q' /\
    q ≡ₚ x :: q' /\
    Forall (fun y => HuffmanNodeCompare x y = false) q'.
Proof.
  destruct q as [|x q]; [done|]. intros _.
  destruct (extract_min later x q) as [m r] eqn:E.
  exists m, r. cbn [top pop]. rewrite E.
  destruct (extract_min_spec later q x m r E). done.
Qed.

Lemma top_pop_empty later (q : list HuffmanNode) :
  q = [] -> top later q = None /\ pop later q = None.
Proof. by intros ->. Qed.

Lemma push_elems (x : HuffmanNode) q : q ++ [x] ≡ₚ x :: q.
Proof. symmetry. apply Permutation_cons_append. Qed.

(** Iteration that depends on the history of the insertions: the keys are
    visited latest first insertion first, as in a hash table that links
    every new node at the head of its list; [keys] is the buffer whose
    bytes were inserted in turn.  Entries of keys that were never inserted
    come last. *)
Definition entry_of (m : gmap Z Z) (k : Z) : option (Z * Z) :=
  pair k <$> m !! k.

Definition iter_recent (keys : list Z) (m : gmap Z Z) : list (Z * Z) :=
  omap (entry_of m) (remove_dups (reverse keys)) ++
  filter (fun kv => kv.1 ∉ keys) (map_to_list m).

Lemma entry_of_Some m k kv :
  entry_of m k = Some kv <-> kv.1 = k /\ m !! k = Some kv.2.
Proof.
  unfold entry_of. destruct kv as [k' v]. cbn.
  destruct (m !! k) as [w|]; cbn; [|by split; [|intros [_ ?]]].
  split.
  - intros E. by injection E as <- <-.
  - intros [-> E]. by injection E as ->.
Qed.

Lemma omap_entry_of_NoDup m (ks : list Z) :
  NoDup ks -> NoDup (omap (entry_of m) ks).
Proof.
  induction 1 as [|k ks Hk Hnd IH]; cbn; [constructor|].
  destruct (entry_of m k) as [kv|] eqn:E; [|done].
  constructor; [|done]. intros Hin.
  apply list_elem_of_omap in Hin as (k' & Hk' & E').
  apply entry_of_Some in E as [E _]. apply entry_of_Some in E' as [E' _].
  congruence.
Qed.

Lemma iter_recent_perm keys m : iter_recent keys m ≡ₚ map_to_list m.
Proof.
  unfold iter_recent. apply NoDup_Permutation.
  - apply NoDup_app. split; [|split].
    + apply omap_entry_of_NoDup, NoDup_remove_dups.
    + intros kv Hin Hin'.
      apply list_elem_of_omap in Hin as (k & Hk & E).
      apply entry_of_Some in E as [E _].
      apply list_elem_of_filter in Hin' as [Hout _].
      rewrite elem_of_remove_dups, elem_of_reverse in Hk. by subst k.
    + apply NoDup_filter, NoDup_map_to_list.
  - apply NoDup_map_to_list.
  - intros [k v]. rewrite elem_of_app, list_elem_of_omap, list_elem_of_filter.
    rewrite elem_of_map_to_list. cbn. split.
    + intros [(k' & _ & E)|[_ E]]; [|done].
      apply entry_of_Some in E as [<- E]. done.
    + intros E. destruct (decide (k ∈ keys)) as [Hk|Hk]; [left | by right].
      exists k. split.
      * by rewrite elem_of_remove_dups, elem_of_reverse.
      * by apply entry_of_Some.
Qed.

(** The implementation selected by the two flags. *)
Definition stdlib (rev_iter later : bool) : StdLib := {|
  umap_iter := fun _ => iter rev_iter;
  umap_iter_perm := fun _ => iter_perm rev_iter;
  priority_queue := list HuffmanNode;
  pq_elems := fun q => q;
  pq_empty := [];
  pq_size := length;
  pq_push := fun x q => q ++ [x];
  pq_top := top later;
  pq_pop := pop later;
  pq_empty_elems := eq_refl;
  pq_size_elems := fun q => eq_refl;
  pq_push_elems := push_elems;
  pq_top_pop_empty := top_pop_empty later;
  pq_top_pop_elems := top_pop_elems later
|}.

(** The same queue under a table that is visited latest insertion
    first. *)
Definition stdlib_recent (later : bool) : StdLib := {|
  umap_iter := iter_recent;
  umap_iter_perm := iter_recent_perm;
  priority_queue := list HuffmanNode;
  pq_elems := fun q => q;
  pq_empty := [];
  pq_size := length;
  pq_push := fun x q => q ++ [x];
  pq_top := top later;
  pq_pop := pop later;
  pq_empty_elems := eq_refl;
  pq_size_elems := fun q => eq_refl;
  pq_push_elems := push_elems;
  pq_top_pop_empty := top_pop_empty later;
  pq_top_pop_elems := top_pop_elems later
|}.

End ListQueue.

(** ** Buffers whose construction meets no tie *)

Module Ties.
Import Huffman Tree.





End Ties.

(** ** Vocabulary for further statements *)

Module More.
Import RLE Huffman Tree.

(** No two neighbouring bytes of a buffer are equal. *)
Fixpoint neighbours_differ (data : list Z) : Prop :=
  match data with
  | x :: ((y :: _) as tl) => x <> y /\ neighbours_differ tl
  | _ => True
  end.

(** Two runs with the same value and with lengths that agree modulo 256. *)
Definition same_run_u8 (r1 r2 : Z * nat) : Prop :=
  fst r1 = fst r2 /\ Z.of_nat (snd r1) mod 256 = Z.of_nat (snd r2) mod 256.

(** Trees as the merge loop weighs them: a leaf has a positive frequency,
    and an inner node is the node the loop builds from its two children:
    symbol 0 and the sum of their frequencies. *)
Inductive sound_weights : HuffmanNode -> Prop :=
| sound_leaf d f : 0 < f -> sound_weights (Node d f None None)
| sound_internal l r :
    sound_weights l -> sound_weights r -> sound_weights (merge_nodes l r).

(** Symbol and frequency of the leaves, left to right. *)
Fixpoint leaf_entries (n : HuffmanNode) : list (Z * Z) :=
  match n with
  | Node d f l r =>
      (if is_leaf n then [(d, f)] else []) ++
      (match l with Some c => leaf_entries c | None => [] end) ++
      (match r with Some c => leaf_entries c | None => [] end)
  end.

(** The node reached from [n] by the branches [p] ([false] left, [true]
    right), if there is one. *)
Fixpoint subtree_at (n : HuffmanNode) (p : list bool) {struct p}
    : option HuffmanNode :=
  match p with
  | [] => Some n
  | b :: p' =>
      match (if b then right_of n else left_of n) with
      | Some c => subtree_at c p'
      | None => None
      end
  end.


(** The frequencies of the children of two inner nodes do not interleave:
    both children of one are at most both children of the other. *)
Definition noncross (a b c d : Z) : Prop :=
  Z.max a b <= Z.min c d \/ Z.max c d <= Z.min a b.

(** No node below the root of a tree of the queue is more frequent than a
    root of the queue. *)
Definition children_below_roots (F : list HuffmanNode) : Prop :=
  forall T p c T',
    T ∈ F -> p <> [] -> subtree_at T p = Some c -> T' ∈ F ->
    freq_of c <= freq_of T'.

(** Any two inner nodes of the queue, at different places, have children
    whose frequencies do not interleave. *)
Definition merges_ordered (F : list HuffmanNode) : Prop :=
  forall T1 T2 p q a b c d,
    T1 ∈ F -> T2 ∈ F ->
    subtree_at T1 p = Some (merge_nodes a b) ->
    subtree_at T2 q = Some (merge_nodes c d) ->
    T1 <> T2 \/ p <> q ->
    noncross (freq_of a) (freq_of b) (freq_of c) (freq_of d).

(** What the merge loop keeps true of the content of its queue. *)
Definition huffman_forest (F : list HuffmanNode) : Prop :=
  Forall sound_weights F /\ NoDup (forest_leaves F) /\
  children_below_roots F /\ merges_ordered F.

End More.

(** * Properties *)

(** ** Run-length encoding *)

Module RLEFacts.
Import RLE.

Lemma maximal_runs_cons_head x rest :
  exists n rs, maximal_runs (x :: rest) = (x, S n) :: rs.
Proof.
  revert x. induction rest as [|y rest IH]; intros x.
  - by exists 0%nat, [].
  - destruct (IH y) as (n & rs & E).
    cbn [maximal_runs] in *. rewrite E.
    destruct (Z.eqb_spec x y) as [->|Hne]; eauto.
Qed.

Lemma maximal_runs_repeat v k :
  maximal_runs (repeat v (S k)) = [(v, S k)].
Proof.
  induction k as [|k IH]; [done|].
  change (repeat v (S (S k))) with (v :: repeat v (S k)).
  cbn [maximal_runs]. rewrite IH. by rewrite Z.eqb_refl.
Qed.

(** A block of [S k] copies of [v] in front of a buffer that does not
    start with [v] is one more run. *)
Lemma maximal_runs_block v k x rest :
  v <> x ->
  maximal_runs (repeat v (S k) ++ x :: rest) = (v, S k) :: maximal_runs (x :: rest).
Proof.
  intros Hne. induction k as [|k IH].
  - destruct (maximal_runs_cons_head x rest) as (n & rs & E).
    change (maximal_runs (v :: x :: rest)
            = (v, 1%nat) :: maximal_runs (x :: rest)).
    cbn [maximal_runs] in *. rewrite E.
    by destruct (Z.eqb_spec v x).
  - change (repeat v (S (S k)) ++ x :: rest)
      with (v :: (repeat v (S k) ++ x :: rest)).
    cbn [maximal_runs]. cbn [maximal_runs] in IH. rewrite IH.
    by rewrite Z.eqb_refl.
Qed.

(** The scan started with [S k] copies of [cur] already counted emits the
    runs of the whole buffer, each count reduced modulo 256. *)
Lemma rle_scan_runs rest : forall cur k,
  rle_scan cur (Z.of_nat (S k) mod 256) rest
  = flat_runs_u8 (maximal_runs (repeat cur (S k) ++ rest)).
Proof.
  induction rest as [|x rest IH]; intros cur k.
  - rewrite app_nil_r, maximal_runs_repeat. reflexivity.
  - cbn [rle_scan]. destruct (Z.eqb_spec cur x) as [<-|Hne].
    + replace (uchar_incr (Z.of_nat (S k) mod 256))
        with (Z.of_nat (S (S k)) mod 256).
      * rewrite IH. f_equal. f_equal.
        change (repeat cur (S (S k))) with (cur :: repeat cur (S k)).
        rewrite repeat_cons. by rewrite <- app_assoc.
      * unfold uchar_incr. rewrite Zplus_mod_idemp_l. f_equal. lia.
    + rewrite (maximal_runs_block cur k x rest Hne).
      change 1 with (Z.of_nat 1 mod 256) at 1.
      rewrite (IH x 0%nat). reflexivity.
Qed.

(** The two loops, run from the index of [cur] in [pre ++ cur :: rest]
    with any budgets that cover [rest], push what the recursive scan of
    [rest] gives. *)
Lemma rle_for_scan rest : forall pre cur count fi fo acc,
  (length rest <= fi)%nat -> (length rest <= fo)%nat ->
  (let data := pre ++ cur :: rest in
   let (i', count') := rle_while fi data (length pre) count in
   rle_for fo data (i' + 1) (acc ++ [nth i' data 0; count']))
  = acc ++ rle_scan cur count rest.
Proof.
  induction rest as [|x rest IH]; intros pre cur count fi fo acc Hfi Hfo;
    cbv zeta.
  - assert (Hstop : rle_while fi (pre ++ [cur]) (length pre) count
                    = (length pre, count)).
    { destruct fi; [done|]. cbn [rle_while]. rewrite length_app. cbn [length].
      by destruct (Nat.ltb_spec (length pre + 1) (length pre + 1)); [lia|]. }
    rewrite Hstop. rewrite nth_middle.
    destruct fo; [done|]. cbn [rle_for rle_scan]. rewrite length_app.
    cbn [length]. by destruct (Nat.ltb_spec (length pre + 1) (length pre + 1)); [lia|].
  - cbn [length] in Hfi, Hfo. destruct fi as [|fi]; [lia|].
    set (data := pre ++ cur :: x :: rest).
    assert (Hdata : data = (pre ++ [cur]) ++ x :: rest)
      by (unfold data; by rewrite <- app_assoc).
    assert (Hlen : length data = (length pre + S (S (length rest)))%nat)
      by (unfold data; rewrite length_app; done).
    assert (Hcur : nth (length pre) data 0 = cur) by apply nth_middle.
    assert (Hx : nth (length pre + 1) data 0 = x).
    { rewrite Hdata.
      replace (length pre + 1)%nat with (length (pre ++ [cur]))
        by (rewrite length_app; done).
      apply nth_middle. }
    cbn [rle_while rle_scan]. fold data. rewrite Hcur, Hx.
    destruct (Nat.ltb_spec (length pre + 1) (length data)) as [_|]; [|lia].
    cbn [andb]. destruct (Z.eqb_spec cur x) as [<-|Hne].
    + specialize (IH (pre ++ [cur]) cur (uchar_incr count) fi fo acc).
      cbv zeta in IH. rewrite <- Hdata, length_app in IH. cbn [length] in IH.
      apply IH; lia.
    + rewrite Hcur. destruct fo as [|fo]; [lia|]. cbn [rle_for].
      destruct (Nat.ltb_spec (length pre + 1) (length data)) as [_|]; [|lia].
      specialize (IH (pre ++ [cur]) x 1 (length data) fo (acc ++ [cur; count])).
      cbv zeta in IH. rewrite <- Hdata, length_app in IH. cbn [length] in IH.
      rewrite IH by lia. by rewrite <- app_assoc.
Qed.

(** The loops of [runLengthEncode] compute the recursive scan. *)
Lemma runLengthEncode_scan data :
  runLengthEncode data
  = match data with
    | [] => []
    | first :: rest => rle_scan first 1 rest
    end.
Proof.
  destruct data as [|first rest]; [done|].
  unfold runLengthEncode. cbn [length rle_for].
  destruct (Nat.ltb_spec 0 (S (length rest))) as [_|]; [|lia].
  exact (rle_for_scan rest [] first 1 (S (length rest)) (length rest) []
           ltac:(lia) ltac:(lia)).
Qed.

(** A larger budget for the outer loop changes nothing. *)
Lemma runLengthEncode_fuel data fuel :
  (length data <= fuel)%nat -> rle_for fuel data 0 [] = runLengthEncode data.
Proof.
  intros Hfuel. rewrite runLengthEncode_scan.
  destruct data as [|first rest]; [by destruct fuel|].
  cbn [length] in Hfuel. destruct fuel as [|fuel]; [lia|].
  cbn [length rle_for].
  destruct (Nat.ltb_spec 0 (S (length rest))) as [_|]; [|lia].
  exact (rle_for_scan rest [] first 1 (S (length rest)) fuel []
           ltac:(lia) ltac:(lia)).
Qed.

Lemma runLengthEncode_runs data :
  runLengthEncode data = flat_runs_u8 (maximal_runs data).
Proof.
  rewrite runLengthEncode_scan. destruct data as [|x rest]; [done|].
  change 1 with (Z.of_nat 1 mod 256).
  apply (rle_scan_runs rest x 0%nat).
Qed.

(** *** [maximal_runs] is the decomposition into maximal runs *)

Lemma expand_maximal_runs data : expand (maximal_runs data) = data.
Proof.
  induction data as [|x rest IH]; [done|].
  cbn [maximal_runs]. destruct (maximal_runs rest) as [|[y n] rs] eqn:E.
  - cbn in IH. by subst rest.
  - destruct (Z.eqb_spec x y) as [->|Hne].
    + rewrite <- IH. reflexivity.
    + rewrite <- IH. reflexivity.
Qed.

Lemma maximal_runs_positive data :
  Forall (fun r => (1 <= snd r)%nat) (maximal_runs data).
Proof.
  induction data as [|x rest IH]; [constructor|].
  cbn [maximal_runs]. destruct (maximal_runs rest) as [|[y n] rs] eqn:E.
  - repeat constructor.
  - inversion IH; subst. destruct (Z.eqb x y).
    + constructor; [cbn; lia | done].
    + constructor; [cbn; lia | by constructor].
Qed.

Lemma maximal_runs_adjacent data : adjacent_differ (maximal_runs data).
Proof.
  induction data as [|x rest IH]; [done|].
  cbn [maximal_runs]. destruct (maximal_runs rest) as [|[y n] rs] eqn:E.
  - done.
  - destruct (Z.eqb_spec x y) as [->|Hne].
    + destruct rs as [|r2 rs']; [done|]. exact IH.
    + split; [exact Hne | exact IH].
Qed.

(** Any list of non-empty runs whose neighbours differ is the list of
    maximal runs of its expansion: the decomposition is unique. *)
Lemma maximal_runs_expand rs :
  Forall (fun r => (1 <= snd r)%nat) rs ->
  adjacent_differ rs ->
  maximal_runs (expand rs) = rs.
Proof.
  induction rs as [|[v n] rs IH]; intros Hpos Hadj; [done|].
  inversion Hpos as [|? ? Hn Hpos']; subst. cbn in Hn.
  destruct n as [|k]; [lia|].
  unfold expand. cbn [flat_map fst snd].
  fold (expand rs).
  destruct rs as [|[w m] rs'].
  - cbn. rewrite app_nil_r. apply (maximal_runs_repeat v k).
  - destruct Hadj as [Hne Hadj']. cbn in Hne.
    specialize (IH Hpos' Hadj').
    inversion Hpos' as [|? ? Hm _]; subst. cbn in Hm.
    destruct m as [|j]; [lia|].
    assert (Hx : expand ((w, S j) :: rs') = w :: (repeat w j ++ expand rs')) by done.
    rewrite Hx in *.
    rewrite (maximal_runs_block v k w _ Hne). by rewrite IH.
Qed.

Lemma flat_runs_u8_small rs :
  Forall (fun r => (snd r <= 255)%nat) rs -> flat_runs_u8 rs = flat_runs rs.
Proof.
  induction 1 as [|[v n] rs Hn _ IH]; [done|].
  cbn in Hn. unfold flat_runs_u8, flat_runs in *. cbn [flat_map fst snd].
  rewrite IH. rewrite Z.mod_small by lia. reflexivity.
Qed.

Lemma flat_runs_u8_length rs :
  length (flat_runs_u8 rs) = (2 * length rs)%nat.
Proof.
  induction rs as [|r rs IH]; [done|].
  unfold flat_runs_u8 in *. cbn [flat_map]. rewrite length_app, IH. cbn. lia.
Qed.

(** The output of the encoder on bytes consists of bytes. *)
Lemma runLengthEncode_uchar data :
  Forall is_uchar data -> Forall is_uchar (runLengthEncode data).
Proof.
  intros Hdata. rewrite runLengthEncode_runs.
  assert (Hvals : Forall (fun r => is_uchar (fst r)) (maximal_runs data)).
  { rewrite <- (expand_maximal_runs data) in Hdata.
    pose proof (maximal_runs_positive data) as Hpos.
    induction (maximal_runs data) as [|[v n] rs IH]; [constructor|].
    inversion Hpos as [|? ? Hn Hpos']; subst. cbn in Hn.
    unfold expand in Hdata. cbn [flat_map fst snd] in Hdata.
    apply Forall_app in Hdata as [Hv Hrest].
    constructor; [|by apply IH].
    destruct n; [lia|]. by inversion Hv. }
  induction Hvals as [|[v n] rs Hv _ IH]; [constructor|].
  unfold flat_runs_u8 in *. cbn [flat_map fst snd app].
  constructor; [exact Hv|]. constructor; [|exact IH].
  unfold is_uchar. apply Z.mod_pos_bound. lia.
Qed.

Lemma runLengthEncode_repeat v k :
  runLengthEncode (repeat v (S k)) = [v; Z.of_nat (S k) mod 256].
Proof. by rewrite runLengthEncode_runs, maximal_runs_repeat. Qed.

(** C10: every maximal run of n identical bytes is emitted as exactly one
    (value, count) pair whose count is n mod 256.  The output of the encoder
    is the flat list of these pairs over the decomposition of the buffer
    into maximal runs (non-empty runs, neighbours of different value,
    expanding to the buffer); a run of exactly 256 bytes gets count 0, and
    the output has even length. *)
Theorem rle_count_is_run_length_mod_256 (data : list Z) :
  expand (maximal_runs data) = data /\
  Forall (fun r => (1 <= snd r)%nat) (maximal_runs data) /\
  adjacent_differ (maximal_runs data) /\
  runLengthEncode data = flat_runs_u8 (maximal_runs data) /\
  (forall v, runLengthEncode (repeat v 256) = [v; 0]) /\
  Nat.Even (length (runLengthEncode data)).
Proof.
  split; [apply expand_maximal_runs|].
  split; [apply maximal_runs_positive|].
  split; [apply maximal_runs_adjacent|].
  split; [apply runLengthEncode_runs|].
  split.
  - intros v. apply (runLengthEncode_repeat v 255).
  - rewrite runLengthEncode_runs, flat_runs_u8_length.
    exists (length (maximal_runs data)). lia.
Qed.

(** C8: when every maximal run of the buffer has at most 255 elements, the
    output is the left-to-right sequence of the (value, count) pairs of the
    maximal runs, with the exact counts. *)
Theorem rle_emits_maximal_runs (data : list Z) :
  Forall (fun r => (snd r <= 255)%nat) (maximal_runs data) ->
  runLengthEncode data = flat_runs (maximal_runs data).
Proof.
  intros Hsmall. rewrite runLengthEncode_runs. by apply flat_runs_u8_small.
Qed.

(** The previous theorem on "aaaabbbcc": the runs are (a,4), (b,3),
    (c,2). *)
Lemma rle_emits_maximal_runs_aaaabbbcc :
  Forall (fun r => (snd r <= 255)%nat)
         (maximal_runs [97; 97; 97; 97; 98; 98; 98; 99; 99]) /\
  runLengthEncode [97; 97; 97; 97; 98; 98; 98; 99; 99]
  = [97; 4; 98; 3; 99; 2].
Proof.
  assert (H : Forall (fun r => (snd r <= 255)%nat)
                (maximal_runs [97; 97; 97; 97; 98; 98; 98; 99; 99])).
  { vm_compute. repeat constructor. }
  split; [exact H|].
  exact (rle_emits_maximal_runs [97; 97; 97; 97; 98; 98; 98; 99; 99] H).
Defined.

(** C2, evaluated on the program: a run of 300 identical bytes is emitted as
    the single pair (value, 44), the counter having wrapped around once; it
    is not split into runs of 255 and 45. *)
Theorem rle_300_identical_bytes (v : Z) :
  runLengthEncode (repeat v 300) = [v; 44] /\
  runLengthEncode (repeat v 300) <> [v; 255; v; 45].
Proof.
  rewrite (runLengthEncode_repeat v 299). split; [reflexivity | discriminate].
Qed.

End RLEFacts.

(** ** The frequency table *)

Module FrequencyFacts.
Import Huffman Tree.

#[export] Instance sumZ_perm : Proper ((≡ₚ) ==> (=)) sumZ.
Proof.
  intros l1 l2 HP. unfold sumZ. induction HP; cbn in *; lia.
Qed.

Lemma total_count_empty : total_count ∅ = 0.
Proof. unfold total_count. by rewrite map_to_list_empty. Qed.

Lemma total_count_insert_fresh (m : gmap Z Z) k v :
  m !! k = None -> total_count (<[k := v]> m) = v + total_count m.
Proof.
  intros Hk. unfold total_count.
  by rewrite (map_to_list_insert m k v Hk).
Qed.

Lemma total_count_step (m : gmap Z Z) k :
  total_count (count_step m k) = total_count m + 1.
Proof.
  unfold count_step. destruct (m !! k) as [v|] eqn:Hk; simpl.
  - rewrite <- (insert_delete_eq m k (v + 1)).
    rewrite total_count_insert_fresh by apply lookup_delete_eq.
    rewrite <- (insert_id m k v Hk) at 2.
    rewrite <- (insert_delete_eq m k v).
    rewrite total_count_insert_fresh by apply lookup_delete_eq. lia.
  - rewrite total_count_insert_fresh by done. lia.
Qed.

Lemma foldl_count_step_total data : forall m,
  total_count (foldl count_step m data) = total_count m + Z.of_nat (length data).
Proof.
  induction data as [|ch data IH]; intros m; cbn [foldl length].
  - lia.
  - rewrite IH, total_count_step. lia.
Qed.

Lemma foldl_count_step_lookup data : forall m b,
  default 0 (foldl count_step m data !! b)
  = default 0 (m !! b) + Z.of_nat (count_occ Z.eq_dec data b).
Proof.
  induction data as [|ch data IH]; intros m b; cbn [foldl count_occ].
  - lia.
  - rewrite IH. unfold count_step.
    destruct (Z.eq_dec ch b) as [->|Hne].
    + rewrite lookup_insert_eq. simpl. lia.
    + by rewrite lookup_insert_ne.
Qed.

Lemma foldl_count_step_dom data : forall m b,
  is_Some (foldl count_step m data !! b) <-> is_Some (m !! b) \/ b ∈ data.
Proof.
  induction data as [|ch data IH]; intros m b; cbn [foldl].
  - rewrite elem_of_nil. tauto.
  - rewrite IH, elem_of_cons. unfold count_step.
    destruct (decide (ch = b)) as [->|Hne].
    + rewrite lookup_insert_eq. split; [tauto|]. intros _. left. eauto.
    + rewrite lookup_insert_ne by done. split; intros [H|H]; auto.
      destruct H as [H|H]; [congruence | auto].
Qed.

Lemma frequencies_unfold data : frequencies data = foldl count_step ∅ data.
Proof. reflexivity. Qed.

Lemma frequencies_dom data b : is_Some (frequencies data !! b) <-> b ∈ data.
Proof.
  rewrite frequencies_unfold, foldl_count_step_dom, lookup_empty.
  split; [intros [[? ?]|?]; done | auto].
Qed.

Lemma frequencies_lookup data b :
  b ∈ data ->
  frequencies data !! b = Some (Z.of_nat (count_occ Z.eq_dec data b)).
Proof.
  intros Hb. apply frequencies_dom in Hb as [v Hv].
  pose proof (foldl_count_step_lookup data ∅ b) as H.
  rewrite <- frequencies_unfold, Hv, lookup_empty in H. cbn in H.
  rewrite Hv. f_equal. lia.
Qed.

Lemma frequencies_absent data b : b ∉ data -> frequencies data !! b = None.
Proof.
  intros Hb. apply eq_None_not_Some. by rewrite frequencies_dom.
Qed.

Lemma frequencies_total data :
  total_count (frequencies data) = Z.of_nat (length data).
Proof.
  rewrite frequencies_unfold, foldl_count_step_total, total_count_empty. lia.
Qed.

(** No count exceeds the length of the buffer, so an [int] holds every
    count of a buffer of at most [INT_MAX] bytes. *)
Lemma analyze_count_le data b v :
  frequencies data !! b = Some v -> 1 <= v <= Z.of_nat (length data).
Proof.
  intros Hv.
  assert (Hb : b ∈ data) by (apply frequencies_dom; eauto).
  rewrite (frequencies_lookup data b Hb) in Hv. injection Hv as <-.
  pose proof (count_occ_bound Z.eq_dec b data).
  apply list_elem_of_In in Hb.
  apply (count_occ_In Z.eq_dec) in Hb. lia.
Qed.

End FrequencyFacts.

(** ** Strings of bits *)

Module StringFacts.
Import Tree.

Lemma append_nil_l (b : string) : "" +:+ b = b.
Proof. reflexivity. Qed.

Lemma append_cons ch (a b : string) : String ch a +:+ b = String ch (a +:+ b).
Proof. reflexivity. Qed.

Lemma append_assoc (a b c : string) : (a +:+ b) +:+ c = a +:+ (b +:+ c).
Proof.
  induction a as [|ch a IH]; [done|]. by rewrite !append_cons, IH.
Qed.

Lemma append_nil_r (a : string) : a +:+ "" = a.
Proof.
  induction a as [|ch a IH]; [done|]. by rewrite append_cons, IH.
Qed.

Lemma length_append (a b : string) :
  String.length (a +:+ b) = (String.length a + String.length b)%nat.
Proof.
  induction a as [|ch a IH]; [done|]. rewrite append_cons. cbn. by rewrite IH.
Qed.

Lemma path_string_app p q :
  path_string (p ++ q) = path_string p +:+ path_string q.
Proof.
  induction p as [|b p IH]; [done|]. cbn. by rewrite append_cons, IH.
Qed.

Lemma path_string_length p : String.length (path_string p) = length p.
Proof. induction p as [|b p IH]; cbn; [done | by rewrite IH]. Qed.



Lemma path_string_binary p : is_binary (path_string p).
Proof.
  induction p as [|b p IH]; cbn; [done|]. split; [|done].
  destruct b; auto.
Qed.

Lemma is_binary_append a b : is_binary a -> is_binary b -> is_binary (a +:+ b).
Proof.
  induction a as [|ch a IH]; [done|]. rewrite append_cons. cbn.
  intros [Hc Ha] Hb. split; [exact Hc | by apply IH].
Qed.



End StringFacts.

(** ** Trees and the code table derived from them *)

Module TreeFacts.
Import Huffman Tree StringFacts.

Lemma leaves_paths n : wf_tree n -> leaves n = (paths n).*1.
Proof.
  induction 1 as [d f | d f l r _ IHl _ IHr]; [done|].
  cbn [leaves paths is_leaf]. rewrite !app_nil_l, fmap_app, IHl, IHr.
  rewrite <- !list_fmap_compose. f_equal; by apply list_fmap_ext.
Qed.

#[export] Instance forest_leaves_perm : Proper ((≡ₚ) ==> (≡ₚ)) forest_leaves.
Proof. intros q1 q2 HP. unfold forest_leaves. by rewrite HP. Qed.

Lemma leaves_nonempty n : wf_tree n -> leaves n <> [].
Proof.
  induction 1 as [d f | d f l r _ IHl _ IHr]; [done|].
  cbn [leaves is_leaf]. rewrite app_nil_l.
  destruct (leaves l); [done | discriminate].
Qed.

Lemma foldl_pointwise {A B} (f g : A -> B -> A) :
  (forall a x, f a x = g a x) -> forall l a, foldl f a l = foldl g a l.
Proof.
  intros Hfg. induction l as [|x l IH]; intros a; cbn; [done|].
  by rewrite Hfg, IH.
Qed.

Lemma encode_paths n : wf_tree n -> forall str hc,
  encode n str hc = foldl (record_code str) hc (paths n).
Proof.
  induction 1 as [d f | d f l r _ IHl _ IHr]; intros str hc.
  - cbn. unfold record_code. cbn. by rewrite append_nil_r.
  - cbn [encode paths is_leaf]. rewrite IHl, IHr, !app_nil_l, foldl_app.
    rewrite !foldl_fmap.
    assert (Hstep : forall (c : bool) (m : gmap Z string) (e : Z * list bool),
              record_code (str +:+ String (bit_char c) "") m e
              = record_code str m (prod_map id (cons c) e)).
    { intros c m [k p]. unfold record_code, prod_map.
      cbn [fst snd path_string]. by rewrite append_assoc, append_cons. }
    rewrite (foldl_pointwise _ _ (Hstep false)).
    apply (foldl_pointwise _ _ (Hstep true)).
Qed.

Lemma foldl_record_code_absent str l : forall hc k,
  k ∉ l.*1 -> foldl (record_code str) hc l !! k = hc !! k.
Proof.
  induction l as [|[k0 p0] l IH]; intros hc k Hk; [done|].
  cbn [foldl]. rewrite fmap_cons, not_elem_of_cons in Hk.
  destruct Hk as [Hne Hk]. rewrite IH by done.
  unfold record_code. by rewrite lookup_insert_ne.
Qed.

Lemma foldl_record_code_present str l : forall hc k p,
  NoDup l.*1 -> (k, p) ∈ l ->
  foldl (record_code str) hc l !! k = Some (str +:+ path_string p).
Proof.
  induction l as [|[k0 p0] l IH]; intros hc k p Hnd Hin.
  - by apply elem_of_nil in Hin.
  - rewrite fmap_cons in Hnd. apply NoDup_cons in Hnd as [Hfresh Hnd].
    cbn [foldl]. apply elem_of_cons in Hin as [[= -> ->]|Hin].
    + rewrite foldl_record_code_absent by done.
      unfold record_code. by rewrite lookup_insert_eq.
    + by apply IH.
Qed.

(** The table filled from a tree whose leaf symbols are pairwise distinct
    holds, for each leaf, the string of its path, and nothing else. *)
Lemma encode_lookup n k :
  wf_tree n -> NoDup (leaves n) ->
  encode n "" ∅ !! k =
    match list_find (fun e => e.1 = k) (paths n) with
    | Some (_, e) => Some (path_string e.2)
    | None => None
    end.
Proof.
  intros Hwf Hnd. rewrite encode_paths by done.
  rewrite leaves_paths in Hnd by done.
  destruct (list_find _ (paths n)) as [[i [k' p]]|] eqn:E.
  - apply list_find_Some in E as (Hi & Hk & _). cbn in Hk. subst k'.
    apply list_elem_of_lookup_2 in Hi.
    by rewrite (foldl_record_code_present "" _ ∅ k p Hnd Hi).
  - apply list_find_None in E.
    rewrite foldl_record_code_absent; [done|].
    intros Hin. apply list_elem_of_fmap in Hin as ([k' p] & -> & Hin).
    rewrite Forall_forall in E. by apply (E _ Hin).
Qed.

Lemma encode_lookup_Some n k c :
  wf_tree n -> NoDup (leaves n) ->
  encode n "" ∅ !! k = Some c ->
  exists p, (k, p) ∈ paths n /\ c = path_string p.
Proof.
  intros Hwf Hnd. rewrite encode_lookup by done.
  destruct (list_find _ (paths n)) as [[i [k' p]]|] eqn:E; [|done].
  intros [= <-]. apply list_find_Some in E as (Hi & Hk & _).
  cbn in Hk. subst k'. exists p. split; [|done].
  by apply list_elem_of_lookup_2 in Hi.
Qed.



End TreeFacts.

(** ** Construction of the tree *)

Module BuildFacts.
Import Huffman Tree StringFacts TreeFacts FrequencyFacts.

Section WithStdLib.
Context {L : StdLib}.

Lemma perm_cons_nonempty {A} (l k : list A) x : l ≡ₚ x :: k -> l <> [].
Proof. intros HP ->. by apply Permutation_nil_cons in HP. Qed.

Lemma umap_iter_empty keys : umap_iter keys ∅ = [].
Proof.
  apply Permutation_nil_r. rewrite umap_iter_perm. by rewrite map_to_list_empty.
Qed.

Lemma umap_iter_keys keys (m : gmap Z Z) :
  (umap_iter keys m).*1 ≡ₚ (map_to_list m).*1.
Proof. by rewrite umap_iter_perm. Qed.

Lemma umap_iter_NoDup keys (m : gmap Z Z) : NoDup (umap_iter keys m).*1.
Proof. rewrite umap_iter_keys. apply NoDup_fst_map_to_list. Qed.

Lemma elem_of_umap_iter_keys keys (m : gmap Z Z) k :
  k ∈ (umap_iter keys m).*1 <-> is_Some (m !! k).
Proof.
  rewrite umap_iter_keys. split.
  - intros ([k' v] & -> & Hin)%list_elem_of_fmap.
    apply elem_of_map_to_list in Hin. eauto.
  - intros [v Hv]. apply list_elem_of_fmap. exists (k, v).
    split; [done|]. by apply elem_of_map_to_list.
Qed.

Lemma fill_queue_foldl (l : list (Z * Z)) : forall q,
  pq_elems (foldl (fun pq pair => pq_push (leaf_of pair) pq) q l)
  ≡ₚ (leaf_of <$> l) ++ pq_elems q.
Proof.
  induction l as [|pair l IH]; intros q; cbn [foldl]; [done|].
  rewrite IH, pq_push_elems, fmap_cons.
  by rewrite <- Permutation_middle.
Qed.

Lemma fill_queue_elems data (freq : gmap Z Z) :
  pq_elems (fill_queue data freq) ≡ₚ leaf_of <$> umap_iter data freq.
Proof.
  unfold fill_queue.
  change (fun pq pair => pq_push (new_HuffmanNode pair.1 pair.2) pq)
    with (fun pq pair => pq_push (leaf_of pair) pq).
  by rewrite fill_queue_foldl, pq_empty_elems, app_nil_r.
Qed.

Lemma forest_leaves_leaf_of (l : list (Z * Z)) :
  forest_leaves (leaf_of <$> l) = l.*1.
Proof. induction l as [|[k v] l IH]; cbn; [done | by f_equal]. Qed.

Lemma wf_leaf_of (l : list (Z * Z)) : Forall wf_tree (leaf_of <$> l).
Proof. apply Forall_fmap, Forall_true. intros [k v]. constructor. Qed.

(** One iteration of the loop. *)
Lemma merge_loop_step fuel q l q1 r q2 :
  pq_size q <> 1%nat ->
  pq_top q = Some l -> pq_pop q = Some q1 ->
  pq_top q1 = Some r -> pq_pop q1 = Some q2 ->
  merge_loop (S fuel) q = merge_loop fuel (pq_push (merge_nodes l r) q2).
Proof.
  intros Hsz Hl Hq1 Hr Hq2. cbn [merge_loop].
  apply Nat.eqb_neq in Hsz. by rewrite Hsz, Hl, Hq1, Hr, Hq2.
Qed.

(** The loop exits on a queue of one node. *)
Lemma merge_loop_exit fuel q x :
  pq_elems q = [x] -> merge_loop fuel q = Ok x.
Proof.
  intros Hq.
  assert (Hsz : pq_size q = 1%nat) by by rewrite pq_size_elems, Hq.
  destruct (pq_top_pop_elems q) as (y & q' & Ht & _ & HP & _);
    [by rewrite Hq|].
  rewrite Hq in HP.
  assert (Hlen : length (pq_elems q') = 0%nat).
  { apply Permutation_length in HP. cbn in HP. lia. }
  apply nil_length_inv in Hlen. rewrite Hlen in HP.
  apply Permutation_singleton_inj in HP as <-.
  destruct fuel; cbn [merge_loop]; by rewrite Hsz, Ht.
Qed.

(** With enough fuel the loop ends on a tree over the leaves of the
    queue. *)
Lemma merge_loop_ok fuel : forall q,
  pq_elems q <> [] ->
  (length (pq_elems q) <= S fuel)%nat ->
  Forall wf_tree (pq_elems q) ->
  exists root,
    merge_loop fuel q = Ok root /\ wf_tree root /\
    leaves root ≡ₚ forest_leaves (pq_elems q).
Proof.
  induction fuel as [|fuel IH]; intros q Hne Hlen Hwf.
  - destruct (pq_elems q) as [|x [|y rest]] eqn:Hq; [done| |cbn in Hlen; lia].
    exists x. split; [by apply merge_loop_exit|].
    inversion Hwf; subst. split; [done|].
    unfold forest_leaves. cbn. by rewrite app_nil_r.
  - destruct (decide (length (pq_elems q) = 1%nat)) as [H1|H1].
    + destruct (pq_elems q) as [|x [|y rest]] eqn:Hq; try done.
      exists x. split; [by apply merge_loop_exit|].
      inversion Hwf; subst. split; [done|].
      unfold forest_leaves. cbn. by rewrite app_nil_r.
    + destruct (pq_top_pop_elems q Hne) as (l & q1 & Hl & Hq1 & HP1 & _).
      assert (Hne1 : pq_elems q1 <> []).
      { intros E. rewrite E in HP1. apply Permutation_length in HP1.
        cbn in HP1. lia. }
      destruct (pq_top_pop_elems q1 Hne1) as (r & q2 & Hr & Hq2 & HP2 & _).
      rewrite (merge_loop_step fuel q l q1 r q2)
        by (rewrite ?pq_size_elems; done).
      assert (HP : pq_elems q ≡ₚ l :: r :: pq_elems q2) by by rewrite HP1, HP2.
      rewrite HP in Hwf. apply Forall_cons in Hwf as [Hwl Hwf].
      apply Forall_cons in Hwf as [Hwr Hwf].
      set (node := merge_nodes l r).
      destruct (IH (pq_push node q2)) as (root & Hroot & Hwroot & Hleaves).
      * apply (perm_cons_nonempty _ _ _ (pq_push_elems node q2)).
      * rewrite pq_push_elems. apply Permutation_length in HP.
        cbn in *. lia.
      * rewrite pq_push_elems. constructor; [by constructor | done].
      * exists root. split; [done|]. split; [done|].
        rewrite Hleaves, pq_push_elems, HP. unfold forest_leaves.
        cbn [flat_map leaves is_leaf node merge_nodes].
        by rewrite app_nil_l, <- app_assoc.
Qed.

(** For a non-empty buffer the construction ends on a tree whose leaves
    are the byte values of the buffer, each once. *)
Lemma build_tree_ok data :
  data <> [] ->
  exists root,
    build_tree data = Ok root /\ wf_tree root /\
    leaves root ≡ₚ (umap_iter data (frequencies data)).*1.
Proof.
  intros Hne. unfold build_tree.
  set (q := fill_queue data (frequencies data)).
  pose proof (fill_queue_elems data (frequencies data)) as Hq. fold q in Hq.
  destruct (merge_loop_ok (S (pq_size q)) q) as (root & Hroot & Hwf & Hl).
  - intros E. rewrite E in Hq. symmetry in Hq.
    apply Permutation_nil_r, fmap_nil_inv in Hq.
    destruct data as [|b data]; [done|].
    assert (Hb : b ∈ (umap_iter (b :: data) (frequencies (b :: data))).*1).
    { apply elem_of_umap_iter_keys, frequencies_dom. left. }
    rewrite Hq in Hb. by apply elem_of_nil in Hb.
  - rewrite pq_size_elems. lia.
  - rewrite Hq. apply wf_leaf_of.
  - exists root. split; [done|]. split; [done|].
    by rewrite Hl, Hq, forest_leaves_leaf_of.
Qed.

(** The frequency of the root is the sum of the frequencies of the queue:
    the loop only adds frequencies up. *)
Lemma merge_loop_freq fuel : forall q root,
  merge_loop fuel q = Ok root ->
  freq_of root = sumZ (freq_of <$> pq_elems q).
Proof.
  induction fuel as [|fuel IH]; intros q root Hroot.
  - destruct (pq_elems q) as [|x [|y rest]] eqn:Hq.
    + cbn [merge_loop] in Hroot. by rewrite pq_size_elems, Hq in Hroot.
    + rewrite (merge_loop_exit 0 q x Hq) in Hroot. injection Hroot as <-.
      cbn. lia.
    + cbn [merge_loop] in Hroot. by rewrite pq_size_elems, Hq in Hroot.
  - destruct (pq_elems q) as [|x [|y rest]] eqn:Hq.
    + destruct (pq_top_pop_empty q Hq) as [Ht _].
      cbn [merge_loop] in Hroot. rewrite pq_size_elems, Hq, Ht in Hroot. done.
    + rewrite (merge_loop_exit (S fuel) q x Hq) in Hroot.
      injection Hroot as <-. cbn. lia.
    + assert (Hne : pq_elems q <> []) by by rewrite Hq.
      destruct (pq_top_pop_elems q Hne) as (l & q1 & Hl & Hq1 & HP1 & _).
      assert (Hne1 : pq_elems q1 <> []).
      { intros E. rewrite E, Hq in HP1. apply Permutation_length in HP1.
        cbn in HP1. lia. }
      destruct (pq_top_pop_elems q1 Hne1) as (r & q2 & Hr & Hq2 & HP2 & _).
      rewrite (merge_loop_step fuel q l q1 r q2) in Hroot
        by (rewrite ?pq_size_elems, ?Hq; done).
      apply IH in Hroot. rewrite Hroot, pq_push_elems, <- Hq, HP1, HP2.
      cbn. lia.
Qed.

(** The largest sum the loop computes, the frequency of the root, is the
    length of the buffer. *)
Lemma build_tree_root_freq data root :
  build_tree data = Ok root -> freq_of root = Z.of_nat (length data).
Proof.
  intros Hroot. unfold build_tree in Hroot. apply merge_loop_freq in Hroot.
  rewrite Hroot, fill_queue_elems, umap_iter_perm.
  rewrite <- frequencies_total. unfold total_count.
  f_equal. rewrite <- list_fmap_compose. by apply list_fmap_ext.
Qed.

(** The budget of the loop is never used up. *)
Lemma build_tree_fuel data : build_tree data <> OutOfFuel.
Proof.
  destruct data as [|b data].
  - unfold build_tree.
    assert (Hq : fill_queue [] (frequencies []) = pq_empty).
    { unfold fill_queue. change (frequencies []) with (∅ : gmap Z Z).
      by rewrite umap_iter_empty. }
    rewrite Hq. cbn [merge_loop].
    rewrite pq_size_elems, pq_empty_elems.
    destruct (pq_top_pop_empty pq_empty pq_empty_elems) as [Ht _].
    by rewrite Ht.
  - destruct (build_tree_ok (b :: data)) as (root & Hroot & _); [done|].
    by rewrite Hroot.
Qed.

Lemma build_tree_leaves data root :
  build_tree data = Ok root ->
  data <> [] ->
  wf_tree root /\ NoDup (leaves root) /\ (forall b, b ∈ leaves root <-> b ∈ data).
Proof.
  intros Hroot Hne.
  destruct (build_tree_ok data Hne) as (root' & Hroot' & Hwf & Hl).
  rewrite Hroot in Hroot'. injection Hroot' as <-.
  split; [done|]. split.
  - rewrite Hl. apply umap_iter_NoDup.
  - intros b. by rewrite Hl, elem_of_umap_iter_keys, frequencies_dom.
Qed.

End WithStdLib.

End BuildFacts.

(** ** The code table and the degenerate inputs *)

Module CodeFacts.
Import RLE Huffman Tree Pipeline StringFacts TreeFacts FrequencyFacts BuildFacts.

Section WithStdLib.
Context {L : StdLib}.

Lemma buildHuffmanTree_root data root hc :
  build_tree data = Ok root ->
  buildHuffmanTree data hc = Ok (encode root "" hc).
Proof. intros E. unfold buildHuffmanTree. by rewrite E. Qed.

Lemma frequencies_repeat b n :
  frequencies (repeat b (S n)) = {[ b := Z.of_nat (S n) ]}.
Proof.
  apply map_eq. intros k. destruct (decide (k = b)) as [->|Hne].
  - rewrite lookup_singleton_eq, frequencies_lookup by left.
    by rewrite count_occ_repeat_eq.
  - rewrite lookup_singleton_ne by done. apply frequencies_absent.
    intros Hin%list_elem_of_In%repeat_spec. done.
Qed.

Lemma build_tree_repeat b n :
  build_tree (repeat b (S n)) = Ok (Node b (Z.of_nat (S n)) None None).
Proof.
  unfold build_tree. apply merge_loop_exit.
  apply Permutation_singleton_r.
  rewrite fill_queue_elems, frequencies_repeat, umap_iter_perm.
  by rewrite map_to_list_singleton.
Qed.

Lemma concat_codes_foldl hc data : forall acc,
  foldl (fun encodedStr ch => encodedStr +:+ default "" (hc !! ch)) acc data
  = acc +:+ concat_codes hc data.
Proof.
  unfold concat_codes. induction data as [|ch data IH]; intros acc.
  - cbn. by rewrite append_nil_r.
  - cbn [foldl]. rewrite IH, (IH ("" +:+ _)).
    by rewrite append_nil_l, append_assoc.
Qed.

Lemma concat_codes_cons hc ch data :
  concat_codes hc (ch :: data)
  = default "" (hc !! ch) +:+ concat_codes hc data.
Proof.
  unfold concat_codes at 1. cbn [foldl]. by rewrite concat_codes_foldl.
Qed.

Lemma concat_codes_nil hc : concat_codes hc [] = "".
Proof. reflexivity. Qed.

End WithStdLib.



(** C4, evaluated on the program: for a buffer that repeats one byte value
    the construction succeeds with a tree that is a single leaf, the code
    of the byte is the empty string, and the encoder's output is empty. *)
Theorem single_symbol_code_is_empty {L : StdLib} (b : Z) (n : nat) :
  build_tree (repeat b (S n)) = Ok (Node b (Z.of_nat (S n)) None None) /\
  buildHuffmanTree (repeat b (S n)) ∅ = Ok {[ b := "" ]} /\
  huffmanEncode (repeat b (S n)) = Ok [].
Proof.
  pose proof (build_tree_repeat b n) as Hroot.
  split; [exact Hroot|].
  assert (Hhc : buildHuffmanTree (repeat b (S n)) ∅ = Ok {[ b := "" ]}).
  { by rewrite (buildHuffmanTree_root _ _ _ Hroot). }
  split; [exact Hhc|].
  unfold huffmanEncode. rewrite Hhc. cbn [bind].
  assert (Hs : concat_codes {[ b := "" ]} (repeat b (S n)) = "").
  { generalize (S n). intros m. induction m as [|m IH]; [done|].
    change (repeat b (S m)) with (b :: repeat b m).
    by rewrite concat_codes_cons, IH, lookup_singleton_eq. }
  by rewrite Hs.
Qed.

(** C3, evaluated on the program: for the empty buffer the frequency table
    is empty, the queue is empty, the loop test [pq.size() != 1] holds and
    the body calls [top()] on the empty queue.  Nothing is emitted. *)
Theorem empty_input_is_undefined {L : StdLib} :
  frequencies [] = ∅ /\
  pq_size (fill_queue [] (frequencies [])) = 0%nat /\
  build_tree [] = UndefinedBehaviour /\
  huffmanEncode [] = UndefinedBehaviour /\
  compress [] = UndefinedBehaviour.
Proof.
  assert (Hq : fill_queue [] (frequencies []) = pq_empty).
  { unfold fill_queue. by rewrite umap_iter_empty. }
  assert (Hsz : pq_size pq_empty = 0%nat).
  { by rewrite pq_size_elems, pq_empty_elems. }
  assert (Hb : build_tree [] = UndefinedBehaviour).
  { unfold build_tree. rewrite Hq. cbn [merge_loop]. rewrite Hsz.
    destruct (pq_top_pop_empty pq_empty pq_empty_elems) as [Ht _].
    by rewrite Ht. }
  split; [done|]. split; [by rewrite Hq|]. split; [done|].
  assert (He : huffmanEncode [] = UndefinedBehaviour).
  { unfold huffmanEncode, buildHuffmanTree. by rewrite Hb. }
  split; [done|]. exact He.
Qed.

End CodeFacts.

(** ** Bit packing *)

Module PackFacts.
Import Huffman Tree StringFacts TreeFacts BuildFacts CodeFacts.

Lemma substring_path_string p : forall i n,
  substring i n (path_string p) = path_string (take n (drop i p)).
Proof.
  induction p as [|b p IH]; intros i n.
  - destruct i, n; reflexivity.
  - destruct i as [|i].
    + destruct n as [|n]; [reflexivity|].
      cbn [substring path_string drop take]. f_equal. apply (IH 0%nat n).
    + cbn [substring path_string drop]. apply IH.
Qed.


Lemma bitset_value_path_string q : forall acc,
  bitset_value (path_string q) acc = Ok (bits_value q acc).
Proof.
  induction q as [|b q IH]; intros acc; [reflexivity|].
  cbn [path_string bitset_value]. destruct b; cbn [bit_char Z.b2z].
  - change (Ascii.eqb "1" "0") with false. change (Ascii.eqb "1" "1") with true.
    cbn iota. rewrite IH. reflexivity.
  - change (Ascii.eqb "0" "0") with true. cbn iota. rewrite IH.
    unfold bits_value. cbn [foldl Z.b2z]. by rewrite Z.add_0_r.
Qed.

Lemma bitset8_path_string q :
  (length q <= 8)%nat ->
  bitset8_to_ulong (path_string q) = Ok (bits_value q 0).
Proof.
  intros Hq. unfold bitset8_to_ulong.
  rewrite substring_path_string, drop_0, take_ge by done.
  apply bitset_value_path_string.
Qed.



Lemma pack_loop_chunks p fuel : forall i acc,
  (length p - i <= fuel)%nat ->
  pack_loop fuel i (path_string p) acc
  = Ok (acc ++ chunk_values fuel (drop i p)).
Proof.
  induction fuel as [|fuel IH]; intros i acc Hfuel.
  - cbn [pack_loop chunk_values]. rewrite path_string_length.
    destruct (Nat.ltb_spec i (length p)); [lia|]. by rewrite app_nil_r.
  - cbn [pack_loop chunk_values]. rewrite path_string_length.
    destruct (Nat.ltb_spec i (length p)) as [Hi|Hi].
    + rewrite substring_path_string.
      rewrite bitset8_path_string by (rewrite length_take; lia).
      cbn [bind]. rewrite IH by lia.
      destruct (drop i p) as [|b q] eqn:Hd.
      { apply (f_equal length) in Hd. rewrite length_drop in Hd. cbn in Hd. lia. }
      rewrite <- Hd, drop_drop, <- app_assoc.
      by replace (i + 8)%nat with (i + 8)%nat by lia.
    + rewrite drop_ge by lia. by rewrite app_nil_r.
Qed.

Lemma pack_path_string p :
  pack (path_string p) = Ok (chunk_values (length p) p).
Proof.
  unfold pack. rewrite path_string_length.
  rewrite (pack_loop_chunks p (length p) 0 []) by lia. by rewrite drop_0.
Qed.

Lemma chunk_values_length fuel : forall q,
  (length q <= fuel)%nat ->
  (length q <= 8 * length (chunk_values fuel q) < length q + 8)%nat.
Proof.
  induction fuel as [|fuel IH]; intros q Hq.
  - destruct q; cbn in *; lia.
  - destruct q as [|b q]; [cbn; lia|].
    specialize (IH (drop 8 (b :: q))). rewrite length_drop in IH.
    cbn [chunk_values length] in *. lia.
Qed.


Lemma bitset_value_cases s : forall acc,
  (exists v, bitset_value s acc = Ok v) \/ bitset_value s acc = InvalidArgument.
Proof.
  induction s as [|c s IH]; intros acc; cbn [bitset_value]; [eauto|].
  destruct (Ascii.eqb c "0"); [apply IH|].
  destruct (Ascii.eqb c "1"); [apply IH | by right].
Qed.

(** The budget of the packing loop is never used up, whatever the
    string. *)
Lemma pack_loop_fuel s fuel : forall i acc,
  (String.length s - i <= fuel)%nat -> pack_loop fuel i s acc <> OutOfFuel.
Proof.
  induction fuel as [|fuel IH]; intros i acc Hfuel; cbn [pack_loop];
    destruct (Nat.ltb_spec i (String.length s)) as [Hi|Hi]; try done; [lia|].
  unfold bitset8_to_ulong.
  destruct (bitset_value_cases (substring 0 8 (substring i 8 s)) 0)
    as [[v ->] | ->]; cbn [bind]; [|done].
  apply IH. lia.
Qed.

Lemma pack_fuel s : pack s <> OutOfFuel.
Proof. apply pack_loop_fuel. lia. Qed.

Lemma code_bits_lookup root ch :
  wf_tree root -> NoDup (leaves root) ->
  default "" (encode root "" ∅ !! ch) = path_string (code_bits root ch).
Proof.
  intros Hwf Hnd. rewrite encode_lookup by done. unfold code_bits.
  by destruct (list_find _ (paths root)) as [[i e]|].
Qed.

Lemma concat_codes_bits root data :
  wf_tree root -> NoDup (leaves root) ->
  concat_codes (encode root "" ∅) data
  = path_string (flat_map (code_bits root) data).
Proof.
  intros Hwf Hnd. induction data as [|ch data IH]; [done|].
  rewrite concat_codes_cons, IH, code_bits_lookup by done.
  cbn [flat_map]. by rewrite path_string_app.
Qed.


(** The encoder's output for a non-empty buffer. *)
Lemma huffmanEncode_chunks {L : StdLib} data root :
  build_tree data = Ok root -> data <> [] ->
  huffmanEncode data
  = Ok (chunk_values (length (flat_map (code_bits root) data))
                     (flat_map (code_bits root) data)).
Proof.
  intros Hroot Hne.
  destruct (build_tree_leaves data root Hroot Hne) as (Hwf & Hnd & _).
  unfold huffmanEncode. rewrite (buildHuffmanTree_root _ _ _ Hroot). cbn [bind].
  rewrite concat_codes_bits by done. apply pack_path_string.
Qed.





End PackFacts.

(** ** Dependence of the output on the standard containers *)

Module DeterminismFacts.
Import RLE Huffman Tree Pipeline Ties.
Import StringFacts TreeFacts FrequencyFacts BuildFacts CodeFacts.










(** The table depends on the order of the bytes as well: where the
    frequency table is visited latest insertion first, the buffers "ab" and
    "ba", which hold the same bytes, give 'a' different codes. *)
Lemma code_table_depends_on_byte_order :
  exists table_ab table_ba,
    @buildHuffmanTree (ListQueue.stdlib_recent false) [97; 98] ∅
      = Ok table_ab /\
    @buildHuffmanTree (ListQueue.stdlib_recent false) [98; 97] ∅
      = Ok table_ba /\
    table_ab !! 97 <> table_ba !! 97.
Proof.
  eexists _, _. split; [vm_compute; reflexivity|].
  split; [vm_compute; reflexivity|].
  vm_compute. discriminate.
Qed.

End DeterminismFacts.

(** ** Decoding with the tree and the bit count at hand *)

Module RoundTripFacts.
Import RLE Huffman Tree Pipeline Ties.
Import RLEFacts StringFacts TreeFacts FrequencyFacts BuildFacts CodeFacts.
Import PackFacts DeterminismFacts.

(** *** Run lengths *)



(** *** Bits *)



(** *** Symbols *)


Lemma code_bits_path root b :
  wf_tree root -> b ∈ leaves root -> (b, code_bits root b) ∈ paths root.
Proof.
  intros Hwf Hb. rewrite leaves_paths in Hb by done.
  apply list_elem_of_fmap in Hb as ([k p] & -> & Hin). unfold code_bits.
  destruct (list_find (fun e => e.1 = (k, p).1) (paths root))
    as [[i [k' p']]|] eqn:E.
  - apply list_find_Some in E as (Hi & Hk & _). cbn in Hk. subst k'.
    by apply list_elem_of_lookup_2 in Hi.
  - apply list_find_None in E. rewrite Forall_forall in E.
    by destruct (E _ Hin).
Qed.






End RoundTripFacts.

(** ** 32-bit frequencies *)

Module IntFacts.
Import Huffman Tree.
Import FrequencyFacts BuildFacts CodeFacts.

Lemma int_value_ok v :
  Int32.INT_MIN <= v <= Int32.INT_MAX -> Int32.int_value v = Ok v.
Proof.
  intros [Hlo Hhi]. unfold Int32.int_value.
  apply Z.leb_le in Hlo, Hhi. by rewrite Hlo, Hhi.
Qed.

Lemma int_value_overflow v :
  Int32.INT_MAX < v -> Int32.int_value v = UndefinedBehaviour.
Proof.
  intros Hv. unfold Int32.int_value.
  destruct (Z.leb_spec v Int32.INT_MAX) as [|_]; [lia|].
  by rewrite andb_false_r.
Qed.

Lemma count_occ_cons_eq (data : list Z) ch b :
  Z.of_nat (count_occ Z.eq_dec (ch :: data) b)
  = Z.of_nat (count_occ Z.eq_dec data b) + (if decide (ch = b) then 1 else 0).
Proof.
  cbn [count_occ]. destruct (Z.eq_dec ch b), (decide (ch = b)); try done; lia.
Qed.

Lemma count_step_lookup (m : gmap Z Z) ch b :
  default 0 (count_step m ch !! b)
  = default 0 (m !! b) + (if decide (ch = b) then 1 else 0).
Proof.
  unfold count_step. destruct (decide (ch = b)) as [->|Hne].
  - by rewrite lookup_insert_eq.
  - rewrite lookup_insert_ne by done. lia.
Qed.

(** As long as no count leaves the range of [int], the counting loop
    computes the counts. *)
Lemma count_loop_exact data : forall m,
  (forall b, 0 <= default 0 (m !! b)) ->
  (forall b,
      default 0 (m !! b) + Z.of_nat (count_occ Z.eq_dec data b)
      <= Int32.INT_MAX) ->
  Int32.count_loop data m = Ok (foldl count_step m data).
Proof.
  induction data as [|ch data IH]; intros m Hpos Hmax; [done|].
  cbn [Int32.count_loop foldl].
  rewrite int_value_ok; cycle 1.
  { specialize (Hpos ch). specialize (Hmax ch).
    rewrite count_occ_cons_eq in Hmax. rewrite decide_True in Hmax by done.
    unfold Int32.INT_MIN. lia. }
  cbn [bind]. fold (count_step m ch). apply IH.
  - intros b. rewrite count_step_lookup. specialize (Hpos b).
    destruct (decide (ch = b)); lia.
  - intros b. rewrite count_step_lookup. specialize (Hmax b).
    rewrite count_occ_cons_eq in Hmax. lia.
Qed.

(** When some count leaves the range of [int], the loop runs into the
    overflow. *)
Lemma count_loop_overflow data : forall m b,
  (forall c, 0 <= default 0 (m !! c) <= Int32.INT_MAX) ->
  Int32.INT_MAX < default 0 (m !! b) + Z.of_nat (count_occ Z.eq_dec data b) ->
  Int32.count_loop data m = UndefinedBehaviour.
Proof.
  induction data as [|ch data IH]; intros m b Hm Hb.
  - cbn [count_occ] in Hb. specialize (Hm b). lia.
  - cbn [Int32.count_loop].
    destruct (decide (default 0 (m !! ch) = Int32.INT_MAX)) as [Hfull|Hroom].
    + rewrite int_value_overflow by lia. reflexivity.
    + rewrite int_value_ok; cycle 1.
      { specialize (Hm ch). unfold Int32.INT_MIN. lia. }
      cbn [bind]. fold (count_step m ch). apply (IH _ b).
      * intros c. rewrite count_step_lookup. specialize (Hm c).
        destruct (decide (ch = c)) as [->|]; lia.
      * rewrite count_step_lookup. rewrite count_occ_cons_eq in Hb. lia.
Qed.

Lemma frequencies_int32 data :
  (forall b, Z.of_nat (count_occ Z.eq_dec data b) <= Int32.INT_MAX) ->
  Int32.frequencies data = Ok (frequencies data).
Proof.
  intros Hmax. unfold Int32.frequencies.
  rewrite (count_loop_exact data ∅); [done|..];
    intros b; rewrite lookup_empty; cbn; [lia | apply Hmax].
Qed.

Lemma frequencies_int32_overflow data b :
  Int32.INT_MAX < Z.of_nat (count_occ Z.eq_dec data b) ->
  Int32.frequencies data = UndefinedBehaviour.
Proof.
  intros Hb. apply (count_loop_overflow data ∅ b).
  - intros c. rewrite lookup_empty. cbn. unfold Int32.INT_MAX. lia.
  - by rewrite lookup_empty.
Qed.

Lemma count_occ_le_length (data : list Z) b :
  Z.of_nat (count_occ Z.eq_dec data b) <= Z.of_nat (length data).
Proof. pose proof (count_occ_bound Z.eq_dec b data). lia. Qed.

Section WithStdLib.
Context {L : StdLib}.

Lemma sumZ_positive (l : list Z) : Forall (fun v => 0 < v) l -> 0 <= sumZ l.
Proof. unfold sumZ. induction 1; cbn in *; lia. Qed.

(** As long as the frequencies of the queue add up to an [int], the merge
    loop computes the sums. *)
Lemma merge_loop_int32 fuel : forall q,
  Forall (fun t => 0 < freq_of t) (pq_elems q) ->
  sumZ (freq_of <$> pq_elems q) <= Int32.INT_MAX ->
  Int32.merge_loop fuel q = merge_loop fuel q.
Proof.
  induction fuel as [|fuel IH]; intros q Hpos Hsum; [done|].
  cbn [Int32.merge_loop merge_loop].
  destruct (Nat.eqb (pq_size q) 1); [done|].
  destruct (pq_elems q) as [|x rest] eqn:Hq.
  { destruct (pq_top_pop_empty q Hq) as [-> _]. done. }
  assert (Hne : pq_elems q <> []) by by rewrite Hq.
  destruct (pq_top_pop_elems q Hne) as (l & q1 & Hl & Hq1 & HP1 & _).
  rewrite Hl, Hq1.
  destruct (pq_elems q1) as [|y rest1] eqn:Hq1e.
  { destruct (pq_top_pop_empty q1 Hq1e) as [-> _]. done. }
  assert (Hne1 : pq_elems q1 <> []) by by rewrite Hq1e.
  destruct (pq_top_pop_elems q1 Hne1) as (r & q2 & Hr & Hq2 & HP2 & _).
  rewrite Hr, Hq2.
  assert (HP : x :: rest ≡ₚ l :: r :: pq_elems q2).
  { by rewrite <- Hq, HP1, <- Hq1e, HP2. }
  rewrite HP in Hpos, Hsum.
  apply Forall_cons in Hpos as [Hpl Hpos]. apply Forall_cons in Hpos as [Hpr Hpos].
  assert (Hrest : 0 <= sumZ (freq_of <$> pq_elems q2)).
  { apply sumZ_positive. by apply Forall_fmap. }
  unfold sumZ in *. cbn in Hsum.
  rewrite int_value_ok by (unfold Int32.INT_MIN; lia). cbn [bind].
  apply IH.
  - rewrite pq_push_elems. constructor; [cbn; lia | done].
  - rewrite pq_push_elems. cbn. lia.
Qed.

Lemma build_tree_int32 data :
  Z.of_nat (length data) <= Int32.INT_MAX ->
  Int32.build_tree data = build_tree data.
Proof.
  intros Hlen. unfold Int32.build_tree, build_tree.
  rewrite frequencies_int32; cycle 1.
  { intros b. pose proof (count_occ_le_length data b). lia. }
  cbn [bind]. apply merge_loop_int32.
  - rewrite fill_queue_elems, umap_iter_perm.
    apply Forall_fmap, Forall_forall. intros [k v] Hin.
    apply elem_of_map_to_list, analyze_count_le in Hin. cbn. lia.
  - rewrite fill_queue_elems, umap_iter_perm.
    replace (freq_of <$> (leaf_of <$> map_to_list (frequencies data)))
      with ((map_to_list (frequencies data)).*2).
    + fold (total_count (frequencies data)). by rewrite frequencies_total.
    + rewrite <- list_fmap_compose. by apply list_fmap_ext.
Qed.

Lemma buildHuffmanTree_int32 data hc :
  Z.of_nat (length data) <= Int32.INT_MAX ->
  Int32.buildHuffmanTree data hc = buildHuffmanTree data hc.
Proof.
  intros Hlen. unfold Int32.buildHuffmanTree, buildHuffmanTree.
  by rewrite build_tree_int32.
Qed.

Lemma huffmanEncode_int32 data :
  Z.of_nat (length data) <= Int32.INT_MAX ->
  Int32.huffmanEncode data = huffmanEncode data.
Proof.
  intros Hlen. unfold Int32.huffmanEncode, huffmanEncode.
  by rewrite buildHuffmanTree_int32.
Qed.

End WithStdLib.

(** C9: for every buffer in which no byte value occurs more than [INT_MAX]
    times, the counting loop ends on a table that maps each byte value of
    the buffer to its number of occurrences and has no entry for any other
    value; its counts add up to the length of the buffer, in whatever order
    the entries are visited. *)
Theorem frequency_table_counts_occurrences {L : StdLib} (data : list Z) :
  (forall b, Z.of_nat (count_occ Z.eq_dec data b) <= Int32.INT_MAX) ->
  exists freq,
    Int32.frequencies data = Ok freq /\
    (forall b, b ∈ data ->
       freq !! b = Some (Z.of_nat (count_occ Z.eq_dec data b))) /\
    (forall b, b ∉ data -> freq !! b = None) /\
    total_count freq = Z.of_nat (length data) /\
    sumZ (snd <$> umap_iter data freq) = Z.of_nat (length data).
Proof.
  intros Hmax. exists (frequencies data).
  split; [by apply frequencies_int32|].
  split; [intros b; apply frequencies_lookup|].
  split; [intros b; apply frequencies_absent|].
  split; [apply frequencies_total|].
  rewrite umap_iter_perm. apply frequencies_total.
Qed.

(** The previous theorem on the buffer "aaaabbbcc". *)
Lemma frequency_table_counts_occurrences_witness :
  exists freq,
    Int32.frequencies [97; 97; 97; 97; 98; 98; 98; 99; 99] = Ok freq /\
    (forall b, b ∈ [97; 97; 97; 97; 98; 98; 98; 99; 99] ->
       freq !! b
       = Some (Z.of_nat
                 (count_occ Z.eq_dec [97; 97; 97; 97; 98; 98; 98; 99; 99] b))) /\
    (forall b, b ∉ [97; 97; 97; 97; 98; 98; 98; 99; 99] -> freq !! b = None) /\
    total_count freq
    = Z.of_nat (length [97; 97; 97; 97; 98; 98; 98; 99; 99]) /\
    sumZ (snd <$> @umap_iter (ListQueue.stdlib false false)
                    [97; 97; 97; 97; 98; 98; 98; 99; 99] freq)
    = Z.of_nat (length [97; 97; 97; 97; 98; 98; 98; 99; 99]).
Proof.
  apply (@frequency_table_counts_occurrences (ListQueue.stdlib false false)
           [97; 97; 97; 97; 98; 98; 98; 99; 99]).
  intros b.
  pose proof (count_occ_le_length [97; 97; 97; 97; 98; 98; 98; 99; 99] b) as H.
  cbn [length] in H. unfold Int32.INT_MAX. lia.
Defined.

(** A byte value that occurs 2^31 times makes its [int] count overflow:
    the counting loop has undefined behaviour and yields no table. *)
Lemma frequency_count_overflows :
  Int32.frequencies (repeat 0 (Z.to_nat 2147483648)) = UndefinedBehaviour.
Proof.
  apply (frequencies_int32_overflow _ 0).
  rewrite count_occ_repeat_eq by reflexivity.
  rewrite Z2Nat.id; unfold Int32.INT_MAX; lia.
Qed.

End IntFacts.

(** * Further properties of the encoders *)

(** ** Run-length encoding: size, composition, collisions *)

Module RLEMore.
Import RLE More RLEFacts.

Lemma maximal_runs_length_le data :
  (length (maximal_runs data) <= length data)%nat.
Proof.
  induction data as [|x rest IH]; [done|].
  cbn [maximal_runs]. destruct (maximal_runs rest) as [|[y n] rs].
  - cbn. lia.
  - destruct (Z.eqb x y); cbn [length] in *; lia.
Qed.

Lemma maximal_runs_nil_inv data : maximal_runs data = [] -> data = [].
Proof.
  destruct data as [|x rest]; [done|].
  destruct (maximal_runs_cons_head x rest) as (n & rs & E). by rewrite E.
Qed.

Lemma flat_runs_u8_app rs1 rs2 :
  flat_runs_u8 (rs1 ++ rs2) = flat_runs_u8 rs1 ++ flat_runs_u8 rs2.
Proof. unfold flat_runs_u8. apply flat_map_app. Qed.

(** X1: the output is never longer than twice the buffer, and it is empty
    exactly for the empty buffer. *)
Theorem rle_output_size (data : list Z) :
  (length (runLengthEncode data) <= 2 * length data)%nat /\
  (runLengthEncode data = [] <-> data = []).
Proof.
  rewrite runLengthEncode_runs. split.
  - rewrite flat_runs_u8_length. pose proof (maximal_runs_length_le data). lia.
  - split.
    + intros E. apply maximal_runs_nil_inv.
      apply (f_equal length) in E. rewrite flat_runs_u8_length in E.
      by apply nil_length_inv; cbn in E; lia.
    + by intros ->.
Qed.

Lemma maximal_runs_neighbours_differ data :
  neighbours_differ data -> maximal_runs data = (fun b => (b, 1%nat)) <$> data.
Proof.
  induction data as [|x rest IH]; intros Hd; [done|].
  destruct rest as [|y rest']; [done|].
  destruct Hd as [Hxy Hd]. specialize (IH Hd).
  change (maximal_runs (x :: y :: rest'))
    with (match maximal_runs (y :: rest') with
          | (y0, n) :: rs =>
              if Z.eqb x y0 then (y0, S n) :: rs else (x, 1%nat) :: (y0, n) :: rs
          | [] => [(x, 1%nat)]
          end).
  rewrite IH. cbn [fmap list_fmap].
  by destruct (Z.eqb_spec x y).
Qed.

(** X2: on a buffer without two equal neighbours the encoder doubles the
    size: the output is every byte followed by the count 1. *)
Theorem rle_without_repeats_doubles (data : list Z) :
  neighbours_differ data ->
  runLengthEncode data = flat_map (fun b => [b; 1]) data.
Proof.
  intros Hd. rewrite runLengthEncode_runs, maximal_runs_neighbours_differ by done.
  clear Hd. induction data as [|x rest IH]; [done|].
  cbn [fmap list_fmap flat_map]. unfold flat_runs_u8 in *. cbn [flat_map fst snd].
  by rewrite IH.
Qed.

(** The previous theorem on the buffer "abab". *)
Lemma rle_without_repeats_doubles_witness :
  neighbours_differ [97; 98; 97; 98] /\
  runLengthEncode [97; 98; 97; 98] = [97; 1; 98; 1; 97; 1; 98; 1].
Proof.
  assert (H : neighbours_differ [97; 98; 97; 98]) by (cbn; repeat split; lia).
  split; [exact H|].
  exact (rle_without_repeats_doubles [97; 98; 97; 98] H).
Defined.

(** The runs of two buffers put end to end, when the first does not end
    with the byte the second starts with. *)
Lemma maximal_runs_app a b :
  last a <> head b ->
  maximal_runs (a ++ b) = maximal_runs a ++ maximal_runs b.
Proof.
  intros Hab. induction a as [|z a IH]; [done|].
  destruct a as [|w a'].
  - destruct b as [|y b']; [done|].
    cbn [last head] in Hab.
    assert (Hzy : z <> y) by congruence.
    destruct (maximal_runs_cons_head y b') as (n & rs & E).
    change (maximal_runs ([z] ++ y :: b'))
      with (match maximal_runs (y :: b') with
            | (y0, n) :: rs =>
                if Z.eqb z y0 then (y0, S n) :: rs else (z, 1%nat) :: (y0, n) :: rs
            | [] => [(z, 1%nat)]
            end).
    rewrite E. by destruct (Z.eqb_spec z y).
  - assert (Hlast : last (w :: a') <> head b) by done.
    specialize (IH Hlast).
    destruct (maximal_runs_cons_head w a') as (n & rs & E).
    change (maximal_runs ((z :: w :: a') ++ b))
      with (match maximal_runs ((w :: a') ++ b) with
            | (y0, n) :: rs =>
                if Z.eqb z y0 then (y0, S n) :: rs else (z, 1%nat) :: (y0, n) :: rs
            | [] => [(z, 1%nat)]
            end).
    change (maximal_runs (z :: w :: a'))
      with (match maximal_runs (w :: a') with
            | (y0, n) :: rs =>
                if Z.eqb z y0 then (y0, S n) :: rs else (z, 1%nat) :: (y0, n) :: rs
            | [] => [(z, 1%nat)]
            end).
    rewrite IH, E. cbn [app]. by destruct (Z.eqb z w).
Qed.

(** X3: encoding two buffers put end to end gives the two encodings put
    end to end, provided the first buffer does not end with the byte the
    second one starts with (so that no run crosses the seam). *)
Theorem rle_app (a b : list Z) :
  last a <> head b ->
  runLengthEncode (a ++ b) = runLengthEncode a ++ runLengthEncode b.
Proof.
  intros Hab. rewrite !runLengthEncode_runs, maximal_runs_app by done.
  apply flat_runs_u8_app.
Qed.

(** The previous theorem on "aab" followed by "cc". *)
Lemma rle_app_witness :
  last [97; 97; 98] <> head [99; 99] /\
  runLengthEncode ([97; 97; 98] ++ [99; 99])
  = runLengthEncode [97; 97; 98] ++ runLengthEncode [99; 99].
Proof.
  assert (H : last [97; 97; 98] <> head [99; 99]) by (cbn; congruence).
  split; [exact H|].
  exact (rle_app [97; 97; 98] [99; 99] H).
Defined.

Lemma flat_runs_u8_eq_iff rs1 : forall rs2,
  flat_runs_u8 rs1 = flat_runs_u8 rs2 <-> Forall2 same_run_u8 rs1 rs2.
Proof.
  unfold flat_runs_u8.
  induction rs1 as [|[v n] rs1 IH]; intros [|[w m] rs2]; cbn [flat_map fst snd app].
  - split; [constructor | done].
  - split; [done | intros H; inversion H].
  - split; [done | intros H; inversion H].
  - split.
    + intros [= -> Hnm Hrest]. constructor; [by split | by apply IH].
    + intros H. inversion H as [|? ? ? ? [Hv Hc] Hrest]; subst.
      cbn in Hv, Hc. subst w. rewrite Hc. f_equal. f_equal. by apply IH.
Qed.

(** X4: two buffers have the same encoding exactly when their maximal
    runs have, one by one, the same value and lengths that agree modulo
    256: the encoder loses the run length beyond its low eight bits and
    nothing else. *)
Theorem rle_same_output_iff (data1 data2 : list Z) :
  runLengthEncode data1 = runLengthEncode data2 <->
  Forall2 same_run_u8 (maximal_runs data1) (maximal_runs data2).
Proof. rewrite !runLengthEncode_runs. apply flat_runs_u8_eq_iff. Qed.

Lemma same_run_u8_small rs1 : forall rs2,
  Forall (fun r => (snd r <= 255)%nat) rs1 ->
  Forall (fun r => (snd r <= 255)%nat) rs2 ->
  Forall2 same_run_u8 rs1 rs2 -> rs1 = rs2.
Proof.
  induction rs1 as [|[v n] rs1 IH]; intros rs2 H1 H2 H12;
    inversion H12 as [|? [w m] ? ? [Hv Hc] Hrest]; subst; [done|].
  inversion H1 as [|? ? Hn H1']; subst. inversion H2 as [|? ? Hm H2']; subst.
  cbn in Hv, Hc, Hn, Hm. subst w.
  rewrite !Z.mod_small in Hc by lia.
  f_equal; [f_equal; lia | by apply IH].
Qed.

(** X5: on buffers whose maximal runs have at most 255 elements the
    encoder is injective: the buffer can be recovered from the output. *)
Theorem rle_injective_on_short_runs (data1 data2 : list Z) :
  Forall (fun r => (snd r <= 255)%nat) (maximal_runs data1) ->
  Forall (fun r => (snd r <= 255)%nat) (maximal_runs data2) ->
  runLengthEncode data1 = runLengthEncode data2 ->
  data1 = data2.
Proof.
  intros H1 H2 E. rewrite !runLengthEncode_runs in E.
  apply flat_runs_u8_eq_iff in E.
  apply (same_run_u8_small _ _ H1 H2) in E.
  by rewrite <- (expand_maximal_runs data1), E, expand_maximal_runs.
Qed.

(** The previous theorem on the buffer "aab". *)
Lemma rle_injective_on_short_runs_witness :
  Forall (fun r => (snd r <= 255)%nat) (maximal_runs [97; 97; 98]) /\
  [97; 97; 98] = [97; 97; 98].
Proof.
  assert (H : Forall (fun r => (snd r <= 255)%nat) (maximal_runs [97; 97; 98])).
  { vm_compute. repeat constructor. }
  split; [exact H|].
  exact (rle_injective_on_short_runs [97; 97; 98] [97; 97; 98] H H eq_refl).
Defined.

End RLEMore.

(** ** The comparator, the frequency table and the tree *)

Module HuffmanMore.
Import RLE Huffman Tree More Pipeline.
Import StringFacts TreeFacts FrequencyFacts BuildFacts CodeFacts PackFacts.
Import RoundTripFacts IntFacts.

(** X6: [HuffmanNodeCompare] is a strict weak ordering, as
    [std::priority_queue] requires of its comparator: it is irreflexive and
    transitive, and being unordered by it (equal frequency) is
    transitive. *)
Theorem HuffmanNodeCompare_strict_weak_order :
  (forall a, HuffmanNodeCompare a a = false) /\
  (forall a b c,
      HuffmanNodeCompare a b = true -> HuffmanNodeCompare b c = true ->
      HuffmanNodeCompare a c = true) /\
  (forall a b c,
      HuffmanNodeCompare a b = false -> HuffmanNodeCompare b a = false ->
      HuffmanNodeCompare b c = false -> HuffmanNodeCompare c b = false ->
      HuffmanNodeCompare a c = false /\ HuffmanNodeCompare c a = false).
Proof.
  unfold HuffmanNodeCompare. repeat split; intros; lia.
Qed.

(** *** Invariants of the merge loop *)

Section LoopInvariant.
Context {L : StdLib}.
Variable I : list HuffmanNode -> Prop.
Hypothesis I_perm : forall F F', F ≡ₚ F' -> I F -> I F'.
Hypothesis I_merge : forall l r F,
  I (l :: r :: F) ->
  Forall (fun y => HuffmanNodeCompare l y = false) (r :: F) ->
  Forall (fun y => HuffmanNodeCompare r y = false) F ->
  I (merge_nodes l r :: F).

(** A property of the queue content that survives the merge of two least
    nodes holds of the root in the end. *)
Lemma merge_loop_invariant fuel : forall q root,
  merge_loop fuel q = Ok root -> I (pq_elems q) -> I [root].
Proof.
  induction fuel as [|fuel IH]; intros q root Hroot HI.
  - destruct (pq_elems q) as [|x [|y rest]] eqn:Hq.
    + cbn [merge_loop] in Hroot. by rewrite pq_size_elems, Hq in Hroot.
    + rewrite (merge_loop_exit 0 q x Hq) in Hroot. by injection Hroot as <-.
    + cbn [merge_loop] in Hroot. by rewrite pq_size_elems, Hq in Hroot.
  - destruct (pq_elems q) as [|x [|y rest]] eqn:Hq.
    + destruct (pq_top_pop_empty q Hq) as [Ht _].
      cbn [merge_loop] in Hroot. rewrite pq_size_elems, Hq, Ht in Hroot. done.
    + rewrite (merge_loop_exit (S fuel) q x Hq) in Hroot.
      by injection Hroot as <-.
    + assert (Hne : pq_elems q <> []) by by rewrite Hq.
      destruct (pq_top_pop_elems q Hne) as (l & q1 & Hl & Hq1 & HP1 & HF1).
      assert (Hne1 : pq_elems q1 <> []).
      { intros E. rewrite E, Hq in HP1. apply Permutation_length in HP1.
        cbn in HP1. lia. }
      destruct (pq_top_pop_elems q1 Hne1) as (r & q2 & Hr & Hq2 & HP2 & HF2).
      rewrite (merge_loop_step fuel q l q1 r q2) in Hroot
        by (rewrite ?pq_size_elems, ?Hq; done).
      apply IH in Hroot; [done|].
      apply (I_perm (merge_nodes l r :: pq_elems q2)).
      { symmetry. apply pq_push_elems. }
      apply I_merge.
      * apply (I_perm (pq_elems q)); [|by rewrite Hq].
        by rewrite HP1, HP2.
      * by rewrite <- HP2.
      * done.
Qed.

End LoopInvariant.

(** *** The frequencies stored in the tree *)

#[export] Instance flat_map_leaf_entries_perm :
  Proper ((≡ₚ) ==> (≡ₚ)) (flat_map leaf_entries).
Proof. intros F1 F2 HP. by rewrite HP. Qed.

Lemma leaf_entries_leaf_of (l : list (Z * Z)) :
  flat_map leaf_entries (leaf_of <$> l) = l.
Proof. induction l as [|[k v] l IH]; cbn; [done | by f_equal]. Qed.

Lemma sound_weights_initial data :
  Forall sound_weights (leaf_of <$> map_to_list (frequencies data)).
Proof.
  apply Forall_fmap, Forall_forall. intros [k v] Hin.
  apply elem_of_map_to_list in Hin. apply analyze_count_le in Hin.
  constructor. cbn. lia.
Qed.

(** The tree carries the entries of the frequency table at its leaves and
    sums at its inner nodes. *)
Lemma build_tree_weighted {L : StdLib} data root :
  build_tree data = Ok root ->
  sound_weights root /\
  leaf_entries root ≡ₚ map_to_list (frequencies data).
Proof.
  intros Hroot.
  set (I := fun F : list HuffmanNode =>
              Forall sound_weights F /\
              flat_map leaf_entries F ≡ₚ map_to_list (frequencies data)).
  assert (HI : I [root]).
  { unfold build_tree in Hroot.
    apply (merge_loop_invariant I) in Hroot; [done|..].
    - intros F F' HP [Hs He]. split; by rewrite <- HP.
    - intros l r F [Hs He] _ _.
      apply Forall_cons in Hs as [Hl Hs]. apply Forall_cons in Hs as [Hr Hs].
      split; [constructor; [by constructor | done]|].
      rewrite <- He. cbn [flat_map leaf_entries merge_nodes is_leaf].
      by rewrite app_nil_l, <- app_assoc.
    - split.
      + rewrite fill_queue_elems, umap_iter_perm. apply sound_weights_initial.
      + by rewrite fill_queue_elems, leaf_entries_leaf_of, umap_iter_perm. }
  destruct HI as [Hs He]. apply Forall_cons in Hs as [Hs _].
  cbn [flat_map] in He. rewrite app_nil_r in He. done.
Qed.

(** X8: for a non-empty buffer of at most [INT_MAX] bytes the tree is
    weighed consistently: its leaves carry exactly the entries of the
    frequency table (each byte value once, with its positive number of
    occurrences), every inner node has symbol 0 and the sum of the
    frequencies of its two children, and the frequency of the root is the
    length of the buffer. *)
Theorem tree_weights {L : StdLib} (data : list Z) :
  data <> [] ->
  Z.of_nat (length data) <= Int32.INT_MAX ->
  exists freq root,
    Int32.frequencies data = Ok freq /\
    Int32.build_tree data = Ok root /\
    sound_weights root /\
    leaf_entries root ≡ₚ map_to_list freq /\
    freq_of root = Z.of_nat (length data).
Proof.
  intros Hne Hlen. destruct (build_tree_ok data Hne) as (root & Hroot & _).
  exists (frequencies data), root.
  split.
  { apply frequencies_int32. intros b.
    pose proof (count_occ_le_length data b). lia. }
  split; [by rewrite build_tree_int32|].
  destruct (build_tree_weighted data root Hroot) as [Hs He].
  split; [done|]. split; [done|]. by apply build_tree_root_freq.
Qed.

(** The previous theorem on the buffer "abb". *)
Lemma tree_weights_witness :
  exists freq root,
    Int32.frequencies [97; 98; 98] = Ok freq /\
    @Int32.build_tree (ListQueue.stdlib false false) [97; 98; 98] = Ok root /\
    sound_weights root /\
    leaf_entries root ≡ₚ map_to_list freq /\
    freq_of root = Z.of_nat (length [97; 98; 98]).
Proof.
  apply (@tree_weights (ListQueue.stdlib false false) [97; 98; 98]).
  - discriminate.
  - cbn [length]. unfold Int32.INT_MAX. lia.
Defined.

(** *** The caller's map *)

(** X9: [buildHuffmanTree] writes into the map it is given the codes of
    the byte values of the buffer and touches nothing else.  For a
    non-empty buffer of at most [INT_MAX] bytes, the table built from the
    empty map has an entry for exactly the byte values of the buffer; called
    on any map, the function returns that map with the entries of the table
    laid over it: the entry of every byte value of the buffer is the one of
    the table, and the entry of every other key is the one passed in. *)
Theorem buildHuffmanTree_overlays {L : StdLib} (data : list Z)
    (huffmanCode : gmap Z string) :
  data <> [] ->
  Z.of_nat (length data) <= Int32.INT_MAX ->
  exists table result,
    Int32.buildHuffmanTree data ∅ = Ok table /\
    (forall b, b ∈ data <-> is_Some (table !! b)) /\
    Int32.buildHuffmanTree data huffmanCode = Ok result /\
    result = table ∪ huffmanCode /\
    (forall b, b ∈ data -> result !! b = table !! b) /\
    (forall b, b ∉ data -> result !! b = huffmanCode !! b).
Proof.
  intros Hne Hlen. destruct (build_tree_ok data Hne) as (root & Hroot & _).
  destruct (build_tree_leaves data root Hroot Hne) as (Hwf & Hnd & Hdom).
  exists (encode root "" ∅), (encode root "" huffmanCode).
  rewrite !buildHuffmanTree_int32 by done.
  rewrite !(buildHuffmanTree_root _ _ _ Hroot).
  assert (Hin : forall k, k ∈ leaves root ->
            exists p, encode root "" huffmanCode !! k = Some (path_string p) /\
                      encode root "" ∅ !! k = Some (path_string p)).
  { intros k Hk. rewrite !encode_paths by done.
    rewrite leaves_paths in Hk, Hnd by done.
    apply list_elem_of_fmap in Hk as ([k' p] & Hk' & Hin).
    cbn in Hk'. subst k. exists p.
    by rewrite !(foldl_record_code_present "" _ _ k' p Hnd Hin). }
  assert (Hout : forall k, k ∉ leaves root ->
            encode root "" huffmanCode !! k = huffmanCode !! k /\
            encode root "" ∅ !! k = None).
  { intros k Hk. rewrite !encode_paths by done.
    rewrite leaves_paths in Hk by done.
    by rewrite !(foldl_record_code_absent "" _ _ k Hk). }
  split; [done|]. split.
  { intros b. rewrite <- Hdom. split.
    - intros Hb. destruct (Hin b Hb) as (p & _ & ->). eauto.
    - intros [c Hc]. destruct (decide (b ∈ leaves root)) as [|Hb]; [done|].
      destruct (Hout b Hb) as [_ E]. congruence. }
  split; [done|]. split.
  { apply map_eq. intros k. destruct (decide (k ∈ leaves root)) as [Hk|Hk].
    - destruct (Hin k Hk) as (p & -> & E). symmetry.
      apply lookup_union_Some_raw. by left.
    - destruct (Hout k Hk) as [-> E]. by rewrite lookup_union_r. }
  split.
  - intros b Hb. apply Hdom in Hb. destruct (Hin b Hb) as (p & -> & ->). done.
  - intros b Hb. rewrite <- Hdom in Hb. by destruct (Hout b Hb) as [-> _].
Qed.

(** The previous theorem on the buffer "abb" and a map that holds codes
    for 'b' and 'z'. *)
Lemma buildHuffmanTree_overlays_witness :
  exists table result,
    @Int32.buildHuffmanTree (ListQueue.stdlib false false) [97; 98; 98] ∅
      = Ok table /\
    (forall b, b ∈ [97; 98; 98] <-> is_Some (table !! b)) /\
    @Int32.buildHuffmanTree (ListQueue.stdlib false false) [97; 98; 98]
      (<[98 := "000"]> (<[122 := "111"]> ∅))
      = Ok result /\
    result = table ∪ <[98 := "000"]> (<[122 := "111"]> ∅) /\
    (forall b, b ∈ [97; 98; 98] -> result !! b = table !! b) /\
    (forall b, b ∉ [97; 98; 98] ->
       result !! b = (<[98 := "000"]> (<[122 := "111"]> ∅) : gmap Z string) !! b).
Proof.
  apply (@buildHuffmanTree_overlays (ListQueue.stdlib false false)
           [97; 98; 98]).
  - discriminate.
  - cbn [length]. unfold Int32.INT_MAX. lia.
Defined.

(** *** Lengths of the codes and of the output *)

Lemma paths_depth_bound t : wf_tree t -> forall k p,
  (k, p) ∈ paths t -> (length p + 1 <= length (leaves t))%nat.
Proof.
  induction 1 as [d f | d f l r Hwl IHl Hwr IHr]; intros k p Hin.
  - cbn in Hin. apply list_elem_of_singleton in Hin as [= -> ->]. cbn. lia.
  - pose proof (leaves_nonempty l Hwl). pose proof (leaves_nonempty r Hwr).
    cbn [paths leaves is_leaf] in *. rewrite app_nil_l in *.
    rewrite length_app.
    apply elem_of_app in Hin as [Hin|Hin];
      apply list_elem_of_fmap in Hin as ([k' p'] & [= -> ->] & Hin);
      [apply IHl in Hin | apply IHr in Hin]; cbn [length];
      destruct (leaves l), (leaves r); cbn [length] in *; try done; lia.
Qed.

Lemma paths_depth_positive t k p :
  wf_tree t -> is_leaf t = false -> (k, p) ∈ paths t -> (1 <= length p)%nat.
Proof.
  intros [d f | d f l r _ _] Hleaf Hin; [done|].
  cbn [paths is_leaf] in Hin. rewrite app_nil_l in Hin.
  apply elem_of_app in Hin as [Hin|Hin];
    apply list_elem_of_fmap in Hin as ([k' p'] & [= -> ->] & Hin); cbn; lia.
Qed.

Lemma several_leaves_not_leaf t :
  wf_tree t -> (2 <= length (leaves t))%nat -> is_leaf t = false.
Proof. intros [d f | d f l r _ _] Hlen; [cbn in Hlen; lia | done]. Qed.

Lemma build_tree_leaf_count {L : StdLib} data root :
  build_tree data = Ok root -> data <> [] ->
  length (leaves root) = size (frequencies data).
Proof.
  intros Hroot Hne.
  destruct (build_tree_ok data Hne) as (root' & Hroot' & _ & Hl).
  rewrite Hroot in Hroot'. injection Hroot' as <-.
  by rewrite Hl, umap_iter_perm, length_fmap, length_map_to_list.
Qed.



Lemma frequencies_size_nonempty data :
  (1 <= size (frequencies data))%nat -> data <> [].
Proof. intros Hk ->. change (frequencies []) with (∅ : gmap Z Z) in Hk.
  rewrite map_size_empty in Hk. lia.
Qed.

Lemma code_bits_total_bounds root (k : nat) (d : list Z) :
  (forall b, b ∈ d ->
     (1 <= length (code_bits root b))%nat /\
     (length (code_bits root b) + 1 <= k)%nat) ->
  (length d <= length (flat_map (code_bits root) d))%nat /\
  (length (flat_map (code_bits root) d) <= length d * (k - 1))%nat.
Proof.
  induction d as [|b d IH]; intros Hd; [cbn; lia|].
  destruct (Hd b) as [Hlo Hhi]; [left|].
  destruct IH as [IHlo IHhi]; [intros c Hc; apply Hd; by right|].
  cbn [flat_map length]. rewrite length_app. lia.
Qed.

Lemma two_keys_size (m : gmap Z Z) a b :
  a <> b -> is_Some (m !! a) -> is_Some (m !! b) -> (2 <= size m)%nat.
Proof.
  intros Hab Ha Hb.
  pose proof (map_size_delete_Some a m Ha) as Hdel.
  assert (Hb' : is_Some (delete a m !! b)) by by rewrite lookup_delete_ne.
  apply map_size_ne_0_lookup_2 in Hb'. lia.
Qed.

(** X11: for a buffer of n <= [INT_MAX] bytes with k >= 2 different byte
    values the encoder returns normally, and its output has at least n/8
    and fewer than n(k-1)/8 + 1 bytes: every byte costs between 1 and k - 1
    bits. *)
Theorem huffmanEncode_size {L : StdLib} (data : list Z) :
  (exists a b, a ∈ data /\ b ∈ data /\ a <> b) ->
  Z.of_nat (length data) <= Int32.INT_MAX ->
  exists freq out,
    Int32.frequencies data = Ok freq /\
    Int32.huffmanEncode data = Ok out /\
    (2 <= size freq)%nat /\
    (length data <= 8 * length out)%nat /\
    (8 * length out < length data * (size freq - 1) + 8)%nat.
Proof.
  intros (a & b & Ha & Hb & Hab) Hlen.
  assert (Hk : (2 <= size (frequencies data))%nat).
  { apply (two_keys_size _ a b Hab); by apply frequencies_dom. }
  assert (Hne : data <> []) by (apply frequencies_size_nonempty; lia).
  destruct (build_tree_ok data Hne) as (root & Hroot & _).
  destruct (build_tree_leaves data root Hroot Hne) as (Hwf & Hnd & Hdom).
  pose proof (build_tree_leaf_count data root Hroot Hne) as Hcount.
  assert (Hleaf : is_leaf root = false).
  { apply several_leaves_not_leaf; [done | lia]. }
  set (p := flat_map (code_bits root) data).
  exists (frequencies data), (chunk_values (length p) p).
  split.
  { apply frequencies_int32. intros c.
    pose proof (count_occ_le_length data c). lia. }
  split; [rewrite huffmanEncode_int32 by done; by apply huffmanEncode_chunks|].
  split; [done|].
  pose proof (chunk_values_length (length p) p (le_n _)) as Hchunks.
  destruct (code_bits_total_bounds root (size (frequencies data)) data)
    as [Hlo Hhi].
  { intros c Hc. apply Hdom in Hc.
    pose proof (code_bits_path root c Hwf Hc) as Hin. split.
    - by apply (paths_depth_positive root c _ Hwf).
    - rewrite <- Hcount. by apply (paths_depth_bound root Hwf c). }
  fold p in Hlo, Hhi. lia.
Qed.

(** The previous theorem on the buffer "abb". *)
Lemma huffmanEncode_size_witness :
  exists freq out,
    Int32.frequencies [97; 98; 98] = Ok freq /\
    @Int32.huffmanEncode (ListQueue.stdlib false false) [97; 98; 98] = Ok out /\
    (2 <= size freq)%nat /\
    (length [97; 98; 98]%Z <= 8 * length out)%nat /\
    (8 * length out < length [97; 98; 98]%Z * (size freq - 1) + 8)%nat.
Proof.
  apply (@huffmanEncode_size (ListQueue.stdlib false false) [97; 98; 98]).
  - exists 97, 98. split; [apply list_elem_of_here|].
    split; [apply list_elem_of_further, list_elem_of_here | discriminate].
  - cbn [length]. unfold Int32.INT_MAX. lia.
Defined.



(** *** Shape of the tree *)




(** *** Completeness of the code *)





End HuffmanMore.

(** ** Frequent bytes get short codes *)

Module MonotoneCodes.
Import RLE Huffman Tree More Pipeline.
Import StringFacts TreeFacts FrequencyFacts BuildFacts CodeFacts PackFacts.
Import RoundTripFacts IntFacts HuffmanMore.

Lemma sound_wf t : sound_weights t -> wf_tree t.
Proof. induction 1; by constructor. Qed.

Lemma sound_positive t : sound_weights t -> 0 < freq_of t.
Proof. induction 1; cbn in *; lia. Qed.

Lemma subtree_at_sound t : sound_weights t -> forall p c,
  subtree_at t p = Some c -> sound_weights c.
Proof.
  induction 1 as [d f Hf | l r Hl IHl Hr IHr]; intros p c Hc.
  - destruct p as [|b p]; cbn in Hc.
    + injection Hc as <-. by constructor.
    + by destruct b.
  - destruct p as [|b p]; cbn in Hc.
    + injection Hc as <-. by constructor.
    + destruct b; eauto.
Qed.

Lemma subtree_at_snoc t : forall p b,
  subtree_at t (p ++ [b])
  = match subtree_at t p with
    | Some X => if b then right_of X else left_of X
    | None => None
    end.
Proof.
  intros p. revert t. induction p as [|a p IH]; intros t b.
  - destruct t as [d f [l|] [r|]], b; reflexivity.
  - destruct t as [d f [l|] [r|]], a; cbn [app subtree_at left_of right_of];
      try done; apply IH.
Qed.

(** A node below another one is less frequent than that one. *)
Lemma subtree_at_freq_le t : sound_weights t -> forall p c,
  subtree_at t p = Some c -> freq_of c <= freq_of t.
Proof.
  induction 1 as [d f Hf | l r Hl IHl Hr IHr]; intros p c Hc.
  - destruct p as [|b p]; cbn in Hc; [injection Hc as <-; lia | by destruct b].
  - pose proof (sound_positive l Hl). pose proof (sound_positive r Hr).
    destruct p as [|b p]; cbn in Hc; [injection Hc as <-; lia|].
    destruct b; [apply IHr in Hc | apply IHl in Hc]; cbn; lia.
Qed.

(** Two trees of a queue whose leaves are pairwise different are
    different. *)
Lemma forest_trees_differ t F T :
  wf_tree t -> NoDup (forest_leaves (t :: F)) -> T ∈ F -> t <> T.
Proof.
  intros Hwf Hnd HT ->. unfold forest_leaves in Hnd. cbn [flat_map] in Hnd.
  apply NoDup_app in Hnd as (_ & Hdisj & _).
  destruct (leaves T) as [|x xs] eqn:E; [by apply leaves_nonempty in Hwf|].
  apply (Hdisj x); [left|].
  apply list_elem_of_In, in_flat_map. exists T.
  split; [by apply list_elem_of_In|]. rewrite E. by left.
Qed.

Lemma huffman_forest_perm F F' :
  F ≡ₚ F' -> huffman_forest F -> huffman_forest F'.
Proof.
  intros HP (Hs & Hnd & HR & HC). repeat split.
  - by rewrite <- HP.
  - by rewrite <- HP.
  - intros T p c T' HT Hp Hc HT'. rewrite <- HP in HT, HT'. eauto.
  - intros T1 T2 p q a b c d H1 H2. rewrite <- HP in H1, H2. eauto.
Qed.

Lemma huffman_forest_initial (entries : list (Z * Z)) :
  NoDup entries.*1 -> Forall (fun e => 0 < e.2) entries ->
  huffman_forest (leaf_of <$> entries).
Proof.
  intros Hnd Hpos. repeat split.
  - apply Forall_fmap. eapply Forall_impl; [exact Hpos|].
    intros [k v] Hv. by constructor.
  - by rewrite forest_leaves_leaf_of.
  - intros T p c T' HT Hp Hc _.
    apply list_elem_of_fmap in HT as ([k v] & -> & _).
    destruct p as [|b p]; [done|]. cbn in Hc. by destruct b.
  - intros T1 T2 p q a b c d HT _ Hc _ _.
    apply list_elem_of_fmap in HT as ([k v] & -> & _).
    destruct p as [|b' p]; cbn in Hc; [done | by destruct b'].
Qed.

(** *** One merge keeps the invariant *)

Section Merge.
Variables (l r : HuffmanNode) (F : list HuffmanNode).
Hypothesis Hforest : huffman_forest (l :: r :: F).
Hypothesis Hl_least : Forall (fun y => HuffmanNodeCompare l y = false) (r :: F).
Hypothesis Hr_least : Forall (fun y => HuffmanNodeCompare r y = false) F.

Let n := merge_nodes l r.

(** Where a node of the new queue was in the old one. *)
Definition came_from (T : HuffmanNode) (p : list bool)
    (T0 : HuffmanNode) (p0 : list bool) : Prop :=
  (T = n /\ p = false :: p0 /\ T0 = l) \/
  (T = n /\ p = true :: p0 /\ T0 = r) \/
  (T ∈ F /\ T0 = T /\ p0 = p).

Lemma merge_sound_l : sound_weights l.
Proof. destruct Hforest as (Hs & _). by inversion Hs. Qed.

Lemma merge_sound_r : sound_weights r.
Proof.
  destruct Hforest as (Hs & _). inversion Hs as [|? ? _ Hs']. by inversion Hs'.
Qed.

Lemma merge_l_le T : T ∈ r :: F -> freq_of l <= freq_of T.
Proof.
  intros HT. rewrite Forall_forall in Hl_least. specialize (Hl_least T HT).
  unfold HuffmanNodeCompare in Hl_least. lia.
Qed.

Lemma merge_r_le T : T ∈ F -> freq_of r <= freq_of T.
Proof.
  intros HT. rewrite Forall_forall in Hr_least. specialize (Hr_least T HT).
  unfold HuffmanNodeCompare in Hr_least. lia.
Qed.

Lemma merge_l_r_differ : l <> r.
Proof.
  destruct Hforest as (_ & Hnd & _).
  apply (forest_trees_differ l (r :: F) r); [|done|left].
  apply sound_wf, merge_sound_l.
Qed.

Lemma merge_l_fresh T : T ∈ F -> l <> T.
Proof.
  intros HT. destruct Hforest as (_ & Hnd & _).
  apply (forest_trees_differ l (r :: F) T); [|done|by right].
  apply sound_wf, merge_sound_l.
Qed.

Lemma merge_r_fresh T : T ∈ F -> r <> T.
Proof.
  intros HT. destruct Hforest as (_ & Hnd & _).
  apply (forest_trees_differ r F T); [|  |done].
  - apply sound_wf, merge_sound_r.
  - unfold forest_leaves in *. cbn [flat_map] in Hnd.
    by apply NoDup_app in Hnd as (_ & _ & Hnd).
Qed.

Lemma locate T p c :
  T ∈ n :: F -> subtree_at T p = Some c ->
  (T = n /\ p = [] /\ c = n) \/
  exists T0 p0,
    came_from T p T0 p0 /\ T0 ∈ l :: r :: F /\ subtree_at T0 p0 = Some c.
Proof.
  intros HT Hc. apply elem_of_cons in HT as [->|HT].
  - destruct p as [|b p].
    + left. cbn in Hc. by injection Hc as <-.
    + right. destruct b; cbn in Hc.
      * exists r, p. split; [right; left; done|]. split; [|done].
        right. left.
      * exists l, p. split; [left; done|]. split; [left | done].
  - right. exists T, p. split; [right; right; done|]. split; [|done].
    right. by right.
Qed.

Lemma came_from_differ T1 p T10 p0 T2 q T20 q0 :
  came_from T1 p T10 p0 -> came_from T2 q T20 q0 ->
  T1 <> T2 \/ p <> q -> T10 <> T20 \/ p0 <> q0.
Proof.
  pose proof merge_l_r_differ as Hlr.
  intros [(-> & -> & ->)|[(-> & -> & ->)|(H1 & -> & ->)]]
         [(-> & -> & ->)|[(-> & -> & ->)|(H2 & -> & ->)]] Hd.
  - right. intros ->. destruct Hd; done.
  - by left.
  - left. by apply merge_l_fresh.
  - left. congruence.
  - right. intros ->. destruct Hd; done.
  - left. by apply merge_r_fresh.
  - left. intros E. by apply (merge_l_fresh T1).
  - left. intros E. by apply (merge_r_fresh T1).
  - done.
Qed.

(** The children of an inner node of the old queue are at most as
    frequent as any root of the old queue. *)
Lemma old_children_below T0 p0 c d T' :
  T0 ∈ l :: r :: F -> subtree_at T0 p0 = Some (merge_nodes c d) ->
  T' ∈ l :: r :: F ->
  freq_of c <= freq_of T' /\ freq_of d <= freq_of T'.
Proof.
  intros HT0 Hsub HT'. destruct Hforest as (_ & _ & HR & _). split.
  - apply (HR T0 (p0 ++ [false]) c T' HT0); [by destruct p0| |done].
    by rewrite subtree_at_snoc, Hsub.
  - apply (HR T0 (p0 ++ [true]) d T' HT0); [by destruct p0| |done].
    by rewrite subtree_at_snoc, Hsub.
Qed.

Lemma huffman_forest_merge : huffman_forest (n :: F).
Proof.
  pose proof merge_sound_l as Hsl. pose proof merge_sound_r as Hsr.
  pose proof (sound_positive l Hsl) as Hpl.
  pose proof (sound_positive r Hsr) as Hpr.
  assert (Hlr : freq_of l <= freq_of r) by (apply merge_l_le; left).
  destruct Hforest as (Hs & Hnd & HR & HC). repeat split.
  - apply Forall_cons in Hs as [_ Hs]. apply Forall_cons in Hs as [_ Hs].
    constructor; [by constructor | done].
  - unfold forest_leaves in *. cbn [flat_map leaves n merge_nodes is_leaf] in *.
    by rewrite app_nil_l, <- app_assoc.
  - intros T p c T' HT Hp Hc HT'.
    assert (Hold : forall T0, T0 ∈ l :: r :: F -> freq_of l <= freq_of T0).
    { intros T0 [->|H0]%elem_of_cons; [lia | by apply merge_l_le]. }
    assert (Hgoal : freq_of c <= freq_of l \/
                    (c = r /\ forall T0, T0 ∈ F -> freq_of r <= freq_of T0)).
    { destruct (locate T p c HT Hc) as [(_ & -> & _)|(T0 & p0 & Hfrom & HT0 & Hc0)];
        [done|].
      destruct p0 as [|b0 p0].
      - cbn in Hc0. injection Hc0 as <-.
        destruct Hfrom as [(_ & _ & ->)|[(_ & _ & ->)|(_ & _ & <-)]];
          [left; lia | right; split; [done | apply merge_r_le] | done].
      - left. apply (HR T0 (b0 :: p0) c l HT0); [done..|left]. }
    apply elem_of_cons in HT' as [->|HT'].
    + cbn. destruct Hgoal as [?|[-> _]]; lia.
    + destruct Hgoal as [?|[-> Hr']]; [|by apply Hr'].
      assert (freq_of l <= freq_of T') by (apply merge_l_le; by right). lia.
  - intros T1 T2 p q a b c d HT1 HT2 HX HY Hd.
    destruct (locate T1 p _ HT1 HX) as [(-> & -> & EX)|(T10 & p0 & Hf1 & HT10 & HX0)];
      destruct (locate T2 q _ HT2 HY) as [(-> & -> & EY)|(T20 & q0 & Hf2 & HT20 & HY0)].
    + destruct Hd; done.
    + unfold n, merge_nodes in EX. injection EX as _ -> ->.
      destruct (old_children_below T20 q0 c d l HT20 HY0) as [? ?]; [left|].
      destruct (old_children_below T20 q0 c d r HT20 HY0) as [? ?];
        [right; left|].
      right. lia.
    + unfold n, merge_nodes in EY. injection EY as _ -> ->.
      destruct (old_children_below T10 p0 a b l HT10 HX0) as [? ?]; [left|].
      destruct (old_children_below T10 p0 a b r HT10 HX0) as [? ?];
        [right; left|].
      left. lia.
    + apply (HC T10 T20 p0 q0 a b c d HT10 HT20 HX0 HY0).
      by apply (came_from_differ T1 p T10 p0 T2 q T20 q0).
Qed.

End Merge.

(** *** The root *)

Lemma build_tree_forest {L : StdLib} data root :
  build_tree data = Ok root -> huffman_forest [root].
Proof.
  intros Hroot. unfold build_tree in Hroot.
  apply (merge_loop_invariant huffman_forest) in Hroot; [done|..].
  - apply huffman_forest_perm.
  - intros l r F. apply huffman_forest_merge.
  - apply (huffman_forest_perm (leaf_of <$> map_to_list (frequencies data))).
    { by rewrite fill_queue_elems, umap_iter_perm. }
    apply huffman_forest_initial; [apply NoDup_fst_map_to_list|].
    apply Forall_forall. intros [k v] Hin.
    apply elem_of_map_to_list, analyze_count_le in Hin. cbn. lia.
Qed.

(** In the tree the loop ends on, a node that is less frequent than
    another one is at least as deep. *)
Lemma rare_nodes_are_deep T :
  huffman_forest [T] -> forall q p x y,
  subtree_at T p = Some x -> subtree_at T q = Some y ->
  freq_of x < freq_of y -> (length q <= length p)%nat.
Proof.
  intros (Hs & _ & HR & HC). apply Forall_cons in Hs as [Hs _].
  assert (HT : T ∈ [T]) by left.
  induction q as [|bq q IH] using rev_ind; intros p x y Hx Hy Hxy;
    [cbn; lia|].
  rewrite subtree_at_snoc in Hy.
  destruct (subtree_at T q) as [Y|] eqn:HY; [|done].
  destruct p as [|bp p _] using rev_ind.
  { cbn in Hx. injection Hx as <-. exfalso.
    assert (freq_of y <= freq_of T); [|lia].
    apply (HR T (q ++ [bq]) y T HT); [by destruct q| |done].
    by rewrite subtree_at_snoc, HY. }
  rewrite subtree_at_snoc in Hx.
  destruct (subtree_at T p) as [X|] eqn:HX; [|done].
  rewrite !length_app. cbn [length].
  destruct (decide (p = q)) as [->|Hpq]; [lia|].
  pose proof (subtree_at_sound T Hs p X HX) as HsX.
  pose proof (subtree_at_sound T Hs q Y HY) as HsY.
  destruct HsX as [dX fX _ | a b _ _]; [by destruct bp|].
  destruct HsY as [dY fY _ | c d _ _]; [by destruct bq|].
  assert (Hnc : noncross (freq_of a) (freq_of b) (freq_of c) (freq_of d)).
  { apply (HC T T p q a b c d HT HT HX HY). by right. }
  assert (Hlt : freq_of (merge_nodes a b) < freq_of (merge_nodes c d)).
  { cbn. unfold noncross in Hnc.
    destruct bp, bq; cbn in Hx, Hy; injection Hx as <-; injection Hy as <-; lia. }
  specialize (IH p _ _ HX eq_refl Hlt). lia.
Qed.

Lemma paths_subtree_at t : wf_tree t -> forall k p,
  (k, p) ∈ paths t ->
  exists f, subtree_at t p = Some (Node k f None None) /\ (k, f) ∈ leaf_entries t.
Proof.
  induction 1 as [d f | d f l r _ IHl _ IHr]; intros k p Hin.
  - cbn in Hin. apply list_elem_of_singleton in Hin as [= -> ->].
    exists f. split; [done | left].
  - cbn [paths leaf_entries is_leaf] in *. rewrite app_nil_l in *.
    apply elem_of_app in Hin as [Hin|Hin];
      apply list_elem_of_fmap in Hin as ([k' p'] & [= -> ->] & Hin);
      [destruct (IHl _ _ Hin) as (f' & Hsub & He)
      |destruct (IHr _ _ Hin) as (f' & Hsub & He)];
      exists f'; (split; [done|]); apply elem_of_app; auto.
Qed.

(** X13: in a buffer of at most [INT_MAX] bytes, a byte value that
    occurs less often than another one never gets the shorter code. *)
Theorem rare_bytes_get_long_codes {L : StdLib} (data : list Z) :
  data <> [] ->
  Z.of_nat (length data) <= Int32.INT_MAX ->
  exists freq huffmanCode,
    Int32.frequencies data = Ok freq /\
    Int32.buildHuffmanTree data ∅ = Ok huffmanCode /\
    forall a b na nb code_a code_b,
      freq !! a = Some na ->
      freq !! b = Some nb ->
      huffmanCode !! a = Some code_a ->
      huffmanCode !! b = Some code_b ->
      na < nb ->
      (String.length code_b <= String.length code_a)%nat.
Proof.
  intros Hne Hlen. destruct (build_tree_ok data Hne) as (root & Hroot & _).
  destruct (build_tree_leaves data root Hroot Hne) as (Hwf & Hnd & _).
  destruct (build_tree_weighted data root Hroot) as [_ Hent].
  pose proof (build_tree_forest data root Hroot) as Hforest.
  exists (frequencies data), (encode root "" ∅).
  split.
  { apply frequencies_int32. intros c.
    pose proof (count_occ_le_length data c). lia. }
  split; [rewrite buildHuffmanTree_int32 by done;
          by apply buildHuffmanTree_root|].
  intros a b na nb code_a code_b Hna Hnb Ha Hb Hlt.
  destruct (encode_lookup_Some root a code_a Hwf Hnd Ha) as (pa & Hpa & ->).
  destruct (encode_lookup_Some root b code_b Hwf Hnd Hb) as (pb & Hpb & ->).
  destruct (paths_subtree_at root Hwf a pa Hpa) as (fa & Hsa & Hea).
  destruct (paths_subtree_at root Hwf b pb Hpb) as (fb & Hsb & Heb).
  rewrite Hent in Hea, Heb. apply elem_of_map_to_list in Hea, Heb.
  assert (fa = na) as -> by congruence. assert (fb = nb) as -> by congruence.
  rewrite !path_string_length.
  by apply (rare_nodes_are_deep root Hforest pb pa _ _ Hsa Hsb).
Qed.

(** The previous theorem on the buffer "abb". *)
Lemma rare_bytes_get_long_codes_witness :
  exists freq huffmanCode,
    Int32.frequencies [97; 98; 98] = Ok freq /\
    @Int32.buildHuffmanTree (ListQueue.stdlib false false) [97; 98; 98] ∅
      = Ok huffmanCode /\
    forall a b na nb code_a code_b,
      freq !! a = Some na ->
      freq !! b = Some nb ->
      huffmanCode !! a = Some code_a ->
      huffmanCode !! b = Some code_b ->
      na < nb ->
      (String.length code_b <= String.length code_a)%nat.
Proof.
  apply (@rare_bytes_get_long_codes (ListQueue.stdlib false false)
           [97; 98; 98]).
  - discriminate.
  - cbn [length]. unfold Int32.INT_MAX. lia.
Defined.

End MonotoneCodes.
